(** * Attribution injector: the author byline scripts

    A verification development for the two browser scripts of the
    notes site:

    - [docs/js/author-avatar.js], which uses a relative image path, and
    - the variant shipped at the end of [README.md], which builds the
      image URL from [window.location.origin].

    Both register a [DOMContentLoaded] listener that looks up the first
    heading below an [article] and inserts a small avatar block after it.

    The DOM is embedded as a finite tree; an element reference held by
    the script (the [firstHeading] constant) is the position of that
    element in the tree.  The DOM methods the scripts call follow the
    DOM standard; the listener body is written in a state-and-exception
    monad over the document. *)

From Stdlib Require Import List String Ascii Bool Arith Lia Sorted.
Import ListNotations.
Open Scope string_scope.
Open Scope list_scope.

Set Warnings "-register-all".

(* ===================================================================== *)
(** * The document tree *)
(* ===================================================================== *)

Module Dom.

Definition attribute : Type := string * string.

(** An element carries its local name, in lower case as the HTML parser
    leaves it, its attributes and its child nodes. *)
Inductive node : Type :=
| Element (tag : string) (attrs : list attribute) (children : list node)
| Text (data : string).

(** The children of the [Document] node, in tree order. *)
Definition document : Type := list node.

(** A reference to a node: child indices from the document downwards. *)
Definition path : Type := list nat.

Definition children (n : node) : list node :=
  match n with
  | Element _ _ cs => cs
  | Text _ => []
  end.

Definition is_element (n : node) : bool :=
  match n with
  | Element _ _ _ => true
  | Text _ => false
  end.

Fixpoint node_at (f : list node) (p : path) : option node :=
  match p with
  | [] => None
  | i :: p' =>
      match nth_error f i with
      | None => None
      | Some n =>
          match p' with
          | [] => Some n
          | _ :: _ => node_at (children n) p'
          end
      end
  end.

(** Tags of the proper ancestors of the node at [p], nearest first;
    [anc] are the tags of the elements above the forest [f]. *)
Fixpoint ancestor_tags (f : list node) (p : path) (anc : list string)
  : list string :=
  match p with
  | [] => anc
  | i :: p' =>
      match p' with
      | [] => anc
      | _ :: _ =>
          match nth_error f i with
          | Some (Element t _ cs) => ancestor_tags cs p' (t :: anc)
          | _ => anc
          end
      end
  end.

(** [nextSibling] of a reference. *)
Fixpoint next_sibling (p : path) : path :=
  match p with
  | [] => []
  | i :: p' =>
      match p' with
      | [] => [S i]
      | _ :: _ => i :: next_sibling p'
      end
  end.

(** Tree (document) order on references: an ancestor comes before its
    descendants, an earlier sibling's subtree before a later sibling. *)
Fixpoint doc_before (p q : path) : bool :=
  match p, q with
  | [], [] => false
  | [], _ :: _ => true
  | _ :: _, [] => false
  | i :: p', j :: q' => (i <? j)%nat || ((i =? j)%nat && doc_before p' q')
  end.

Definition lt_doc (p q : path) : Prop := doc_before p q = true.

Definition tag_of (n : node) : string :=
  match n with
  | Element t _ _ => t
  | Text _ => EmptyString
  end.

(** Move a reference [k] siblings to the right at its top level. *)
Definition bump (k : nat) (p : path) : path :=
  match p with
  | [] => []
  | j :: q => (k + j) :: q
  end.

(** Where the node referenced by [q] is found once a node has been
    inserted right after the one at [p]: the later siblings of [p]
    move one place, every other reference is unchanged. *)
Fixpoint shift (p q : path) : path :=
  match p, q with
  | i :: p', j :: q' =>
      match p' with
      | [] => if (i <? j)%nat then S j :: q' else q
      | _ :: _ => if (i =? j)%nat then j :: shift p' q' else q
      end
  | _, _ => q
  end.

(** The same node, whatever its children are. *)
Definition same_node (n n' : node) : Prop :=
  match n, n' with
  | Element t a _, Element t' a' _ => t = t' /\ a = a'
  | Text s, Text s' => s = s'
  | _, _ => False
  end.

(** Replace the [i]-th node of a child list by the nodes [repl]. *)
Definition splice (f : list node) (i : nat) (repl : list node) : list node :=
  firstn i f ++ repl ++ skipn (S i) f.

Definition set_attr (k v : string) (a : list attribute) : list attribute :=
  if existsb (fun kv => String.eqb (fst kv) k) a
  then map (fun kv => if String.eqb (fst kv) k then (k, v) else kv) a
  else a ++ [(k, v)].

(** [q] names a proper ancestor of the node [p] names. *)
Fixpoint strict_prefix (q p : path) : bool :=
  match q, p with
  | [], _ :: _ => true
  | i :: q', j :: p' => (i =? j)%nat && strict_prefix q' p'
  | _, _ => false
  end.

(* --------------------------------------------------------------------- *)
(** ** Selectors *)

(** The selector language the scripts use: type selectors joined by the
    descendant combinator, grouped in a comma-separated list. *)
Inductive complex_selector : Type :=
| Type_sel (t : string)
| Descendant (a : complex_selector) (t : string).

Definition selector_list : Type := list complex_selector.

(** Does an element of tag [t] whose ancestors carry the tags [anc]
    (nearest first) match the selector? *)
Fixpoint matches (s : complex_selector) (t : string) (anc : list string)
  : bool :=
  match s with
  | Type_sel s0 => String.eqb t s0
  | Descendant a s0 =>
      String.eqb t s0 &&
      (fix up (l : list string) : bool :=
         match l with
         | [] => false
         | t' :: l' => matches a t' l' || up l'
         end) anc
  end.

Definition matches_any (S : selector_list) (anc : list string) (n : node)
  : bool :=
  match n with
  | Element t _ _ => existsb (fun s => matches s t anc) S
  | Text _ => false
  end.

(* --------------------------------------------------------------------- *)
(** ** Tree-order traversal *)

Section Select.

Variable P : list string -> node -> bool.

(** References, relative to [n] and in tree order, of the nodes of the
    subtree at [n] that satisfy [P]. *)
Fixpoint select_node (anc : list string) (n : node) : list path :=
  (if P anc n then [[]] else []) ++
  match n with
  | Element t _ cs =>
      (fix forest (i : nat) (l : list node) : list path :=
         match l with
         | [] => []
         | c :: l' =>
             map (cons i) (select_node (t :: anc) c) ++ forest (S i) l'
         end) 0 cs
  | Text _ => []
  end.

Fixpoint select_forest (anc : list string) (i : nat) (l : list node)
  : list path :=
  match l with
  | [] => []
  | c :: l' => map (cons i) (select_node anc c) ++ select_forest anc (S i) l'
  end.

End Select.

(** [querySelectorAll]: every element matching one of the selectors, in
    tree order. *)
Definition querySelectorAll (d : document) (S : selector_list) : list path :=
  select_forest (matches_any S) [] 0 d.

(** [querySelector]: the first of them, or [null]. *)
Definition querySelector (d : document) (S : selector_list) : option path :=
  hd_error (querySelectorAll d S).

(* --------------------------------------------------------------------- *)
(** ** Insertion and removal *)

Inductive position : Type :=
| beforebegin | afterbegin | beforeend | afterend.

Definition ascii_lower (c : ascii) : ascii :=
  let n := nat_of_ascii c in
  if ((65 <=? n) && (n <=? 90))%nat then ascii_of_nat (n + 32) else c.

Fixpoint lower (s : string) : string :=
  match s with
  | EmptyString => EmptyString
  | String c s' => String (ascii_lower c) (lower s')
  end.

(** The [where] argument is matched ASCII case-insensitively. *)
Definition position_of_string (w : string) : option position :=
  let w := lower w in
  if String.eqb w "beforebegin" then Some beforebegin
  else if String.eqb w "afterbegin" then Some afterbegin
  else if String.eqb w "beforeend" then Some beforeend
  else if String.eqb w "afterend" then Some afterend
  else None.

(** Insert [b] next to or inside the node at [p]. *)
Fixpoint insert_adjacent (f : list node) (p : path) (w : position) (b : node)
  : option (list node) :=
  match p with
  | [] => None
  | i :: p' =>
      match nth_error f i with
      | None => None
      | Some n =>
          match p' with
          | [] =>
              match w, n with
              | beforebegin, _ => Some (splice f i [b; n])
              | afterend, _ => Some (splice f i [n; b])
              | afterbegin, Element t a cs =>
                  Some (splice f i [Element t a (b :: cs)])
              | beforeend, Element t a cs =>
                  Some (splice f i [Element t a (cs ++ [b])])
              | _, Text _ => None
              end
          | _ :: _ =>
              match n with
              | Element t a cs =>
                  match insert_adjacent cs p' w b with
                  | Some cs' => Some (splice f i [Element t a cs'])
                  | None => None
                  end
              | Text _ => None
              end
          end
      end
  end.

(** Detach the node at [p] ([ChildNode.remove]). *)
Fixpoint remove_at (f : list node) (p : path) : option (list node) :=
  match p with
  | [] => None
  | i :: p' =>
      match nth_error f i with
      | None => None
      | Some n =>
          match p' with
          | [] => Some (splice f i [])
          | _ :: _ =>
              match n with
              | Element t a cs =>
                  match remove_at cs p' with
                  | Some cs' => Some (splice f i [Element t a cs'])
                  | None => None
                  end
              | Text _ => None
              end
          end
      end
  end.

(* --------------------------------------------------------------------- *)
(** ** Markup tokens *)

(** The document as the stream of start tags, text and end tags that
    serialising it produces. *)
Inductive token : Type :=
| Open (tag : string) (attrs : list attribute)
| Chars (data : string)
| Close (tag : string).

Fixpoint tokens_node (n : node) : list token :=
  match n with
  | Element t a cs =>
      Open t a ::
      (fix forest (l : list node) : list token :=
         match l with
         | [] => []
         | c :: l' => tokens_node c ++ forest l'
         end) cs ++ [Close t]
  | Text s => [Chars s]
  end.

Fixpoint tokens (l : list node) : list token :=
  match l with
  | [] => []
  | c :: l' => tokens_node c ++ tokens l'
  end.

End Dom.

(* ===================================================================== *)
(** * Script execution *)
(* ===================================================================== *)

Module Js.
Import Dom.

Inductive exn : Type :=
| TypeError
| SyntaxError
| HierarchyRequestError
| InvalidCharacterError
| NotSupportedError.

(** How a call ends: normally with a value, or with a thrown exception. *)
Inductive completion (A : Type) : Type :=
| Normal (a : A)
| Throw (e : exn).
Arguments Normal {A} a.
Arguments Throw {A} e.

(** A script step reads and mutates the ambient [document] and may
    throw.  Nothing in the scripts catches, so a throw ends the run. *)
Definition M (A : Type) : Type := document -> completion (A * document).

Definition ret {A} (a : A) : M A := fun d => Normal (a, d).

Definition bind {A B} (m : M A) (k : A -> M B) : M B :=
  fun d =>
    match m d with
    | Normal (a, d') => k a d'
    | Throw e => Throw e
    end.

Definition throw {A} (e : exn) : M A := fun _ => Throw e.

Declare Scope js_scope.
Delimit Scope js_scope with js.
Notation "x <- m ;; k" := (bind m (fun x => k))
  (at level 61, m at next level, right associativity) : js_scope.
Notation "m ;; k" := (bind m (fun _ => k))
  (at level 61, right associativity) : js_scope.

(** The run of a listener on a document: the document it leaves, or the
    exception that escapes it. *)
Definition run (m : M unit) (d : document) : completion document :=
  match m d with
  | Normal (_, d') => Normal d'
  | Throw e => Throw e
  end.

(** The host surface the scripts reach: the DOM methods and setters
    they call and the read of [window.location.origin]. *)
Class DomApi : Type := {
  querySelector_ : selector_list -> M (option path);
  createElement_ : string -> M node;
  location_origin : M string;
  set_style : node -> string -> M node;
  set_innerHTML : node -> list node -> M node;
  insertAdjacentElement : path -> string -> node -> M unit
}.

(* --------------------------------------------------------------------- *)
(** ** The browser's implementation *)

(** The host modelled here is a browser showing an HTML document. *)

Definition is_alpha (c : ascii) : bool :=
  let n := nat_of_ascii c in
  (((65 <=? n) && (n <=? 90)) || ((97 <=? n) && (n <=? 122)))%nat.

Definition name_stop (c : ascii) : bool :=
  let n := nat_of_ascii c in
  ((n =? 0) || (n =? 9) || (n =? 10) || (n =? 12) || (n =? 13) ||
   (n =? 32) || (n =? 47) || (n =? 62))%nat.

Fixpoint no_name_stop (s : string) : bool :=
  match s with
  | EmptyString => true
  | String c s' => negb (name_stop c) && no_name_stop s'
  end.

(** Element names that start with an ASCII letter and hold no
    whitespace, NUL, [/] or [>]. *)
Definition valid_element_name (t : string) : bool :=
  match t with
  | EmptyString => false
  | String c s' => is_alpha c && no_name_stop s'
  end.

Definition browser_querySelector (S : selector_list) : M (option path) :=
  fun d => Normal (querySelector d S, d).

(** [document.createElement]: a detached element; the name is
    lower-cased in an HTML document. *)
Definition browser_createElement (t : string) : M node :=
  if valid_element_name t then ret (Element (lower t) [] [])
  else throw InvalidCharacterError.

(** Assigning [el.style] sets the inline style declaration.  A browser
    stores the declarations re-serialised (spaces after the colons, the
    shorthand normalised); the model keeps the text of the assignment as
    the value of the attribute, so the style attribute of a built
    element stands for the declarations assigned, not for the text a
    browser would print. *)
Definition browser_set_style (n : node) (css : string) : M node :=
  match n with
  | Element t a cs => ret (Element t (set_attr "style" css a) cs)
  | Text _ => ret n
  end.

(** Assigning [el.innerHTML] replaces the children of [el] by the
    fragment the markup parses to.  In an HTML document the fragment
    parser accepts every markup, so the setter does not throw.  (In an
    XML document it would parse the markup as XML and throw on the
    unclosed [img] of the scripts' template; that host is not the one
    modelled.) *)
Definition browser_set_innerHTML (n : node) (fragment : list node) : M node :=
  match n with
  | Element t a _ => ret (Element t a fragment)
  | Text _ => ret n
  end.

(** [el.insertAdjacentElement(where, b)].  A child of the [Document]
    node cannot get an element sibling: the document holds one element
    child at most. *)
Definition browser_insertAdjacentElement (h : path) (w : string) (b : node)
  : M unit :=
  fun d =>
    match node_at d h, b with
    | Some (Element _ _ _), Element _ _ _ =>
        match position_of_string w with
        | None => Throw SyntaxError
        | Some pos =>
            match pos, h with
            | beforebegin, [_] | afterend, [_] => Throw HierarchyRequestError
            | _, _ =>
                match insert_adjacent d h pos b with
                | Some d' => Normal (tt, d')
                | None => Throw TypeError
                end
            end
        end
    | _, _ => Throw TypeError
    end.

(** The browser on a page whose [window.location.origin] is [origin]. *)
Definition browser (origin : string) : DomApi := {|
  querySelector_ := browser_querySelector;
  createElement_ := browser_createElement;
  location_origin := ret origin;
  set_style := browser_set_style;
  set_innerHTML := browser_set_innerHTML;
  insertAdjacentElement := browser_insertAdjacentElement
|}.

End Js.

(* ===================================================================== *)
(** * The two scripts *)
(* ===================================================================== *)

Module Scripts.
Import Dom Js.
Local Open Scope js_scope.

(** ["article h1, article h2"] *)
Definition article_headings : selector_list :=
  [Descendant (Type_sel "article") "h1"; Descendant (Type_sel "article") "h2"].

Definition container_style : string :=
  "display:flex;align-items:center;gap:10px;margin:6px 0 20px 0;".

Definition newline : string := String "010"%char EmptyString.

(** The white space of the template literal before each tag and before
    its end. *)
Definition indent6 : string := Eval cbv in (newline ++ "      ")%string.
Definition indent4 : string := Eval cbv in (newline ++ "    ")%string.

(** ** [docs/js/author-avatar.js] *)
Module AuthorAvatar.

(** The nodes the template literal parses to. *)
Definition avatar_markup : list node :=
  [ Text indent6;
    Element "img"
      [("src", "images/labeeb.jpg"); ("width", "32"); ("height", "32");
       ("style", "border-radius:50%;")] [];
    Text indent6;
    Element "span" [("style", "font-size:14px;opacity:0.8;")]
      [Text "By labeeb"];
    Text indent4 ].

Definition listener `{DomApi} : M unit :=
  firstHeading <- querySelector_ article_headings ;;
  match firstHeading with
  | Some h =>
      avatarDiv <- createElement_ "div" ;;
      avatarDiv <- set_style avatarDiv container_style ;;
      avatarDiv <- set_innerHTML avatarDiv avatar_markup ;;
      insertAdjacentElement h "afterend" avatarDiv
  | None => ret tt
  end.

End AuthorAvatar.

(** ** The variant in [README.md] *)
Module Readme.

Definition image_url (origin : string) : string :=
  (origin ++ "/backend-engineering-notes/images/labeeb.jpg")%string.

(** The nodes the template literal parses to, the image source being
    the interpolated [image_url] (an origin holds no quote and no
    ampersand, so the attribute value is the URL as it stands). *)
Definition avatar_markup (image_url : string) : list node :=
  [ Text indent6;
    Element "img"
      [("src", image_url); ("width", "32"); ("height", "32");
       ("style", "border-radius:50%;")] [];
    Text indent6;
    Element "span" [("style", "font-size:14px;opacity:0.8;")]
      [Text "By Labeeb"];
    Text indent4 ].

Definition listener `{DomApi} : M unit :=
  firstHeading <- querySelector_ article_headings ;;
  match firstHeading with
  | Some h =>
      avatarDiv <- createElement_ "div" ;;
      origin <- location_origin ;;
      let image_url := image_url origin in
      avatarDiv <- set_style avatarDiv container_style ;;
      avatarDiv <- set_innerHTML avatarDiv (avatar_markup image_url) ;;
      insertAdjacentElement h "afterend" avatarDiv
  | None => ret tt
  end.

End Readme.

(** The deployed script is one of the two: [docs/js/author-avatar.js],
    or the [README.md] script on a page whose [window.location.origin]
    is [origin]. *)
Inductive variant : Type :=
| Relative
| OriginQualified (origin : string).

Definition listener `{DomApi} (v : variant) : M unit :=
  match v with
  | Relative => AuthorAvatar.listener
  | OriginQualified _ => Readme.listener
  end.

(** The origin of the page a variant is deployed on.  The relative
    script never reads it. *)
Definition origin_of (v : variant) : string :=
  match v with
  | Relative => EmptyString
  | OriginQualified origin => origin
  end.

(** The browser the variant runs in. *)
Definition host (v : variant) : DomApi := browser (origin_of v).

(** The readiness event reaches the listener: one run of it in the
    browser. *)
Definition handler (v : variant) (d : document) : completion document :=
  run (listener (H := host v) v) d.

(** The listener run twice in the same page load. *)
Definition handler_twice (v : variant) (d : document) : completion document :=
  run (listener (H := host v) v ;; listener (H := host v) v) d.

(** The listener run [n] times in the same page load. *)
Fixpoint listener_times `{DomApi} (v : variant) (n : nat) : M unit :=
  match n with
  | 0 => ret tt
  | S k => listener_times v k ;; listener v
  end.

Definition handler_times (v : variant) (n : nat) (d : document)
  : completion document :=
  run (listener_times (H := host v) v n) d.

(* --------------------------------------------------------------------- *)
(** ** Bylines *)

(** The attribution block: a flex container holding the avatar image
    and the label. *)
Definition byline_element (src label : string) : node :=
  Element "div" [("style", container_style)]
    [ Text indent6;
      Element "img"
        [("src", src); ("width", "32"); ("height", "32");
         ("style", "border-radius:50%;")] [];
      Text indent6;
      Element "span" [("style", "font-size:14px;opacity:0.8;")] [Text label];
      Text indent4 ].

Definition relative_image_path : string := "images/labeeb.jpg".
Definition site_base_path : string := "/backend-engineering-notes/".
Definition image_sub_path : string := "images/labeeb.jpg".

(** The element each variant builds. *)
Definition avatarDiv (v : variant) : node :=
  match v with
  | Relative => byline_element relative_image_path "By labeeb"
  | OriginQualified origin =>
      byline_element (Readme.image_url origin) "By Labeeb"
  end.

(** Source and label of a byline, if [n] is one. *)
Definition byline_parts (n : node) : option (string * string) :=
  match n with
  | Element t [(k, st)]
      [Text w1; Element ti [(k1, src); (k2, wd); (k3, ht); (k4, rs)] [];
       Text w2; Element ts [(k5, ls)] [Text label]; Text w3] =>
      if String.eqb t "div" && String.eqb k "style" &&
         String.eqb st container_style &&
         String.eqb w1 indent6 && String.eqb ti "img" &&
         String.eqb k1 "src" && String.eqb k2 "width" && String.eqb wd "32" &&
         String.eqb k3 "height" && String.eqb ht "32" &&
         String.eqb k4 "style" && String.eqb rs "border-radius:50%;" &&
         String.eqb w2 indent6 && String.eqb ts "span" &&
         String.eqb k5 "style" && String.eqb ls "font-size:14px;opacity:0.8;" &&
         String.eqb w3 indent4 && String.prefix "By " label
      then Some (src, label)
      else None
  | _ => None
  end.

Definition is_byline (n : node) : bool :=
  match byline_parts n with
  | Some _ => true
  | None => false
  end.

(** The bylines of a document, in tree order. *)
Definition bylines (d : document) : list path :=
  select_forest (fun _ => is_byline) [] 0 d.

(** The image source of a byline. *)
Definition image_source (n : node) : option string :=
  option_map fst (byline_parts n).

Definition label_text (n : node) : option string :=
  option_map snd (byline_parts n).

Definition is_heading (n : node) : bool :=
  match n with
  | Element t _ _ => String.eqb t "h1" || String.eqb t "h2"
  | Text _ => false
  end.

(** A heading the scripts look for: an [h1] or [h2] element below an
    [article]. *)
Definition qualifying (d : document) (p : path) : Prop :=
  exists t a cs,
    node_at d p = Some (Element t a cs) /\
    (t = "h1" \/ t = "h2") /\
    In "article" (ancestor_tags d p []).

(* --------------------------------------------------------------------- *)
(** ** Slashes where two path pieces meet *)

Definition is_slash (c : ascii) : bool := Ascii.eqb c "/"%char.

Fixpoint leading_slashes (s : string) : nat :=
  match s with
  | EmptyString => 0
  | String c s' => if is_slash c then S (leading_slashes s') else 0
  end.

Fixpoint all_slashes (s : string) : bool :=
  match s with
  | EmptyString => true
  | String c s' => is_slash c && all_slashes s'
  end.

Fixpoint trailing_slashes (s : string) : nat :=
  match s with
  | EmptyString => 0
  | String c s' =>
      if is_slash c && all_slashes s' then S (trailing_slashes s')
      else trailing_slashes s'
  end.

(** The number of slashes in a row at the place where [a] ends and [b]
    starts in [a ++ b]. *)
Definition junction_slashes (a b : string) : nat :=
  trailing_slashes a + leading_slashes b.

(* --------------------------------------------------------------------- *)
(** ** The host accesses of a run *)

(** One of the accesses a listener makes on the element it has created
    throws [e]: the style assignment, the markup assignment or the
    insertion after the heading [h], each reached when the ones before
    it ended normally. *)
Definition thrown_by_build `{DomApi} (markup : list node) (h : path)
  (n1 : node) (d1 : document) (e : exn) : Prop :=
  set_style n1 container_style d1 = Throw e \/
  exists n2 d2,
    set_style n1 container_style d1 = Normal (n2, d2) /\
    (set_innerHTML n2 markup d2 = Throw e \/
     exists n3 d3,
       set_innerHTML n2 markup d2 = Normal (n3, d3) /\
       insertAdjacentElement h "afterend" n3 d3 = Throw e).

(** One of the host accesses of a run of the listener on [d] throws
    [e], in the order the script makes them: the lookup; then, a heading
    having been found, the creation of the element; then, in the
    [README.md] script, the read of [window.location.origin]; then the
    accesses of [thrown_by_build]. *)
Definition thrown_by_access `{DomApi} (v : variant) (d : document) (e : exn)
  : Prop :=
  querySelector_ article_headings d = Throw e \/
  exists h d0,
    querySelector_ article_headings d = Normal (Some h, d0) /\
    (createElement_ "div" d0 = Throw e \/
     exists n1 d1,
       createElement_ "div" d0 = Normal (n1, d1) /\
       match v with
       | Relative => thrown_by_build AuthorAvatar.avatar_markup h n1 d1 e
       | OriginQualified _ =>
           location_origin d1 = Throw e \/
           exists origin d1',
             location_origin d1 = Normal (origin, d1') /\
             thrown_by_build
               (Readme.avatar_markup (Readme.image_url origin)) h n1 d1' e
       end).

(* --------------------------------------------------------------------- *)
(** ** A host without element construction *)

(** The browser's surface, except that [createElement] is not
    supported. *)
Definition unsupported_dom : DomApi := {|
  querySelector_ := browser_querySelector;
  createElement_ := fun _ => throw NotSupportedError;
  location_origin := ret "https://example.org";
  set_style := browser_set_style;
  set_innerHTML := browser_set_innerHTML;
  insertAdjacentElement := browser_insertAdjacentElement
|}.

(* --------------------------------------------------------------------- *)
(** ** Sample pages *)

Definition page_title_body : document :=
  [Element "article" []
     [Element "h1" [] [Text "Title"]; Element "p" [] [Text "Body"]]].

Definition page_no_heading : document :=
  [Element "article" [] [Element "p" [] [Text "No heading here"]]].

Definition page_h2_before_h1 : document :=
  [Element "html" []
     [Element "body" []
        [Element "article" []
           [Element "h2" [] [Text "Overview"];
            Element "h1" [] [Text "Title"];
            Element "p" [] [Text "Body"]]]]].

Definition page_two_articles : document :=
  [Element "html" []
     [Element "body" []
        [Element "article" []
           [Element "h1" [] [Text "First"]; Element "p" [] [Text "a"]];
         Element "article" []
           [Element "h1" [] [Text "Second"]; Element "p" [] [Text "b"]]]]].

(** A page whose heading is not inside an [article]. *)
Definition page_heading_outside_article : document :=
  [Element "html" []
     [Element "body" []
        [Element "h1" [] [Text "Notes"];
         Element "ul" [] [Element "li" [] [Text "OSI model"]]]]].

End Scripts.

(* ===================================================================== *)
(** * Facts about the document tree *)
(* ===================================================================== *)

Module DomFacts.
Import Dom.

(** Induction on a node together with its child lists. *)
Section NodeInduction.

Variable Pn : node -> Prop.
Variable Pf : list node -> Prop.
Hypothesis Htext : forall s, Pn (Text s).
Hypothesis Helem : forall t a cs, Pf cs -> Pn (Element t a cs).
Hypothesis Hnil : Pf [].
Hypothesis Hcons : forall n l, Pn n -> Pf l -> Pf (n :: l).

Fixpoint node_forest_ind (n : node) : Pn n :=
  match n with
  | Text s => Htext s
  | Element t a cs =>
      Helem t a cs
        ((fix walk (l : list node) : Pf l :=
            match l with
            | [] => Hnil
            | c :: l' => Hcons c l' (node_forest_ind c) (walk l')
            end) cs)
  end.

Lemma forest_node_ind : forall l, Pf l.
Proof.
  induction l as [|c l IH]; [exact Hnil|].
  apply Hcons; [apply node_forest_ind | exact IH].
Qed.

End NodeInduction.

(* --------------------------------------------------------------------- *)
(** ** Child lists *)

Lemma splice_eq (f : list node) i n :
  nth_error f i = Some n -> f = firstn i f ++ n :: skipn (S i) f.
Proof.
  revert f; induction i as [|i IH]; intros [|c f] H; simpl in *;
    try discriminate.
  - now inversion H.
  - f_equal. now apply IH.
Qed.

Lemma firstn_length_lt (f : list node) i n :
  nth_error f i = Some n -> List.length (firstn i f) = i.
Proof.
  intros H. apply firstn_length_le.
  apply Nat.lt_le_incl, nth_error_Some. congruence.
Qed.

Lemma nth_error_splice_at f i n (repl : list node) k :
  nth_error f i = Some n ->
  nth_error (splice f i repl) (i + k) =
  nth_error (repl ++ skipn (S i) f) k.
Proof.
  intros H. unfold splice.
  rewrite nth_error_app2; rewrite (firstn_length_lt _ _ _ H); [|lia].
  f_equal. lia.
Qed.

(* --------------------------------------------------------------------- *)
(** ** Tree order *)

Lemma doc_before_irrefl p : doc_before p p = false.
Proof.
  induction p as [|i p IH]; simpl; [reflexivity|].
  now rewrite Nat.ltb_irrefl, Nat.eqb_refl, IH.
Qed.

Lemma doc_before_asym p : forall q,
  doc_before p q = true -> doc_before q p = false.
Proof.
  induction p as [|i p IH]; intros [|j q]; simpl; try congruence.
  intros H. apply orb_true_iff in H as [H|H].
  - apply Nat.ltb_lt in H.
    assert ((j <? i)%nat = false) as -> by (apply Nat.ltb_ge; lia).
    assert ((j =? i)%nat = false) as -> by (apply Nat.eqb_neq; lia).
    reflexivity.
  - apply andb_true_iff in H as [E H]. apply Nat.eqb_eq in E; subst j.
    now rewrite Nat.ltb_irrefl, Nat.eqb_refl, (IH _ H).
Qed.

Lemma doc_before_cons i p q :
  doc_before (i :: p) (i :: q) = doc_before p q.
Proof. simpl. now rewrite Nat.ltb_irrefl, Nat.eqb_refl. Qed.

Lemma StronglySorted_app (A : Type) (R : A -> A -> Prop) (l1 l2 : list A) :
  StronglySorted R l1 -> StronglySorted R l2 ->
  (forall x y, In x l1 -> In y l2 -> R x y) ->
  StronglySorted R (l1 ++ l2).
Proof.
  induction l1 as [|a l1 IH]; simpl; intros H1 H2 Hc; [assumption|].
  inversion H1; subst. constructor.
  - apply IH; auto.
  - apply Forall_app; split; [assumption|].
    apply Forall_forall; intros y Hy. apply Hc; auto.
Qed.

Lemma StronglySorted_hd_least (A : Type) (R : A -> A -> Prop) x l y :
  StronglySorted R (x :: l) -> In y (x :: l) -> y = x \/ R x y.
Proof.
  intros H [->|Hy]; [now left|]. right.
  inversion H; subst. eapply Forall_forall; eauto.
Qed.

(* --------------------------------------------------------------------- *)
(** ** Traversal *)

Section SelectFacts.

Variable P : list string -> node -> bool.

Lemma select_node_Element anc t a cs :
  select_node P anc (Element t a cs) =
  (if P anc (Element t a cs) then [[]] else []) ++
  select_forest P (t :: anc) 0 cs.
Proof.
  simpl. f_equal. generalize 0.
  induction cs as [|c cs IH]; intros i; simpl; [reflexivity|].
  now rewrite IH.
Qed.

Lemma select_node_Text anc s :
  select_node P anc (Text s) = if P anc (Text s) then [[]] else [].
Proof. simpl. now rewrite app_nil_r. Qed.

Lemma select_forest_app anc l1 : forall i l2,
  select_forest P anc i (l1 ++ l2) =
  select_forest P anc i l1 ++ select_forest P anc (i + List.length l1) l2.
Proof.
  induction l1 as [|c l1 IH]; intros i l2; simpl.
  - now rewrite Nat.add_0_r.
  - rewrite IH, <- app_assoc. do 3 f_equal. lia.
Qed.

Lemma select_forest_bump anc k l : forall i,
  select_forest P anc (k + i) l = map (bump k) (select_forest P anc i l).
Proof.
  induction l as [|c l IH]; intros i; simpl; [reflexivity|].
  rewrite map_app, map_map, <- IH.
  replace (k + S i) with (S (k + i)) by lia. reflexivity.
Qed.

Lemma select_forest_heads anc l : forall i p,
  In p (select_forest P anc i l) ->
  exists j q, p = j :: q /\ i <= j < i + List.length l.
Proof.
  induction l as [|c l IH]; intros i p; simpl; [tauto|].
  rewrite in_app_iff, in_map_iff. intros [(q & <- & _)|H].
  - exists i, q. split; [reflexivity|simpl; lia].
  - destruct (IH _ _ H) as (j & q & -> & Hj).
    exists j, q. split; [reflexivity|simpl; lia].
Qed.

Lemma select_node_spec_step anc n q :
  In q (select_node P anc n) <->
  (q = [] /\ P anc n = true) \/
  In q (select_forest P (tag_of n :: anc) 0 (children n)).
Proof.
  destruct n as [t a cs|s].
  - rewrite select_node_Element, in_app_iff. simpl tag_of. simpl children.
    destruct (P anc (Element t a cs)); simpl; intuition congruence.
  - rewrite select_node_Text. simpl.
    destruct (P anc (Text s)); simpl; intuition congruence.
Qed.

Lemma node_at_cons_S c l j q :
  node_at (c :: l) (S j :: q) = node_at l (j :: q).
Proof. reflexivity. Qed.

Lemma node_at_zero c l j q :
  node_at (c :: l) (0 :: j :: q) = node_at (children c) (j :: q).
Proof. reflexivity. Qed.

Lemma ancestor_tags_cons_S c l j q anc :
  ancestor_tags (c :: l) (S j :: q) anc = ancestor_tags l (j :: q) anc.
Proof. reflexivity. Qed.

Lemma ancestor_tags_zero c l q anc :
  q <> [] -> node_at (c :: l) (0 :: q) <> None ->
  ancestor_tags (c :: l) (0 :: q) anc =
  ancestor_tags (children c) q (tag_of c :: anc).
Proof.
  destruct q as [|j q]; [congruence|]. intros _.
  destruct c as [t a cs|s]; [reflexivity|].
  simpl. now destruct j.
Qed.

(** A reference is selected exactly when the node it names satisfies
    the predicate under the tags of its ancestors. *)
Lemma select_forest_spec l : forall anc i p,
  In p (select_forest P anc i l) <->
  exists j q m, p = (i + j) :: q /\ node_at l (j :: q) = Some m /\
                P (ancestor_tags l (j :: q) anc) m = true.
Proof.
  pattern l. revert l.
  apply forest_node_ind with
    (Pn := fun n => forall anc q,
       In q (select_forest P (tag_of n :: anc) 0 (children n)) <->
       exists m, node_at (children n) q = Some m /\
                 P (ancestor_tags (children n) q (tag_of n :: anc)) m = true).
  - intros s anc q. simpl. split; [tauto|].
    intros (m & H & _). destruct q as [|j q]; [discriminate|].
    now destruct j.
  - intros t a cs IH anc q. simpl tag_of; simpl children. rewrite IH.
    split.
    + intros (j & q' & m & -> & H1 & H2). now exists m.
    + intros (m & H1 & H2). destruct q as [|j q']; [discriminate|].
      now exists j, q', m.
  - intros anc i p. simpl. split; [tauto|].
    intros (j & q & m & _ & H & _). now destruct j.
  - intros c l IHc IHl anc i p. simpl select_forest.
    rewrite in_app_iff, in_map_iff. split.
    + intros [(q & <- & Hq)|H].
      * apply select_node_spec_step in Hq as [[-> Hq]|Hq].
        -- exists 0, [], c. rewrite Nat.add_0_r. auto.
        -- apply IHc in Hq as (m & H1 & H2).
           exists 0, q, m. rewrite Nat.add_0_r.
           destruct q as [|j q]; [discriminate|].
           split; [reflexivity|]. split; [exact H1|].
           rewrite ancestor_tags_zero; [exact H2|congruence|].
           rewrite node_at_zero, H1. congruence.
      * apply IHl in H as (j & q & m & -> & H1 & H2).
        exists (S j), q, m. split; [f_equal; lia|]. auto.
    + intros (j & q & m & -> & H1 & H2). destruct j as [|j].
      * left. exists q. rewrite Nat.add_0_r. split; [reflexivity|].
        apply select_node_spec_step.
        destruct q as [|j q].
        -- left. simpl in H1. inversion H1; subst. auto.
        -- right. apply IHc. rewrite node_at_zero in H1.
           exists m. split; [exact H1|].
           rewrite ancestor_tags_zero in H2; [exact H2|congruence|].
           rewrite node_at_zero, H1. congruence.
      * right. apply IHl. exists j, q, m.
        split; [f_equal; lia|]. auto.
Qed.

Lemma select_forest_In l anc p :
  In p (select_forest P anc 0 l) <->
  exists m, node_at l p = Some m /\ P (ancestor_tags l p anc) m = true.
Proof.
  rewrite select_forest_spec. split.
  - intros (j & q & m & -> & H). now exists m.
  - intros (m & H1 & H2). destruct p as [|j q]; [discriminate|].
    now exists j, q, m.
Qed.

(** The traversal lists references in tree order. *)
Lemma select_forest_sorted l : forall anc i,
  StronglySorted lt_doc (select_forest P anc i l).
Proof.
  pattern l. revert l.
  apply forest_node_ind with
    (Pn := fun n => forall anc, StronglySorted lt_doc (select_node P anc n)).
  - intros s anc. rewrite select_node_Text.
    destruct (P anc (Text s)); repeat constructor.
  - intros t a cs IH anc. rewrite select_node_Element.
    apply StronglySorted_app; [| apply IH |].
    + destruct (P anc (Element t a cs)); repeat constructor.
    + intros x y Hx Hy.
      destruct (P anc (Element t a cs)); simpl in Hx; [|tauto].
      destruct Hx as [<-|[]].
      apply select_forest_heads in Hy as (j & q & -> & _). reflexivity.
  - intros anc i. constructor.
  - intros c l IHc IHl anc i. simpl.
    apply StronglySorted_app; [| apply IHl |].
    + specialize (IHc anc). induction IHc as [|x xs Hs IHs Hx]; simpl;
        constructor; [assumption|].
      apply Forall_forall. intros y Hy.
      apply in_map_iff in Hy as (y' & <- & Hy').
      unfold lt_doc. rewrite doc_before_cons.
      eapply Forall_forall in Hx; eauto.
    + intros x y Hx Hy. apply in_map_iff in Hx as (x' & <- & _).
      apply select_forest_heads in Hy as (j & q & -> & Hj & _).
      unfold lt_doc. simpl.
      assert ((i <? j)%nat = true) as -> by (apply Nat.ltb_lt; lia).
      reflexivity.
Qed.

End SelectFacts.

(* --------------------------------------------------------------------- *)
(** ** Splicing a child list *)

Lemma nth_error_splice_hd f i n x (repl : list node) :
  nth_error f i = Some n -> nth_error (splice f i (x :: repl)) i = Some x.
Proof.
  intros H. rewrite <- (Nat.add_0_r i) at 2.
  now rewrite (nth_error_splice_at _ _ _ _ 0 H).
Qed.

Lemma nth_error_splice_snd f i n x y (repl : list node) :
  nth_error f i = Some n ->
  nth_error (splice f i (x :: y :: repl)) (S i) = Some y.
Proof.
  intros H. rewrite <- (Nat.add_1_r i).
  now rewrite (nth_error_splice_at _ _ _ _ 1 H).
Qed.

Lemma firstn_splice f i n (repl : list node) :
  nth_error f i = Some n -> firstn i (splice f i repl) = firstn i f.
Proof.
  intros H. unfold splice.
  rewrite firstn_app, (firstn_length_lt _ _ _ H), Nat.sub_diag.
  simpl. rewrite app_nil_r. apply firstn_all2.
  now rewrite (firstn_length_lt _ _ _ H).
Qed.

Lemma skipn_splice f i n (repl : list node) :
  nth_error f i = Some n ->
  skipn (i + List.length repl) (splice f i repl) = skipn (S i) f.
Proof.
  intros H. unfold splice.
  rewrite skipn_app, (firstn_length_lt _ _ _ H).
  rewrite skipn_all2 by (rewrite (firstn_length_lt _ _ _ H); lia).
  replace (i + List.length repl - i) with (List.length repl) by lia.
  simpl. rewrite skipn_app, Nat.sub_diag, skipn_all. reflexivity.
Qed.

(** Splicing the same place again only sees the latest replacement. *)
Lemma splice_splice f i n x (r1 r2 : list node) :
  nth_error f i = Some n ->
  splice (splice f i (x :: r1)) i r2 = splice f i (r2 ++ r1).
Proof.
  intros H. unfold splice at 1.
  rewrite (firstn_splice _ _ _ _ H).
  pose proof (skipn_splice f i n (x :: r1) H) as Hs.
  unfold splice in *.
  assert (skipn (S i) (firstn i f ++ (x :: r1) ++ skipn (S i) f) =
          r1 ++ skipn (S i) f) as ->.
  { rewrite skipn_app, (firstn_length_lt _ _ _ H).
    rewrite skipn_all2 by (rewrite (firstn_length_lt _ _ _ H); lia).
    replace (S i - i) with 1 by lia. reflexivity. }
  now rewrite <- app_assoc.
Qed.

Lemma splice_id f i n :
  nth_error f i = Some n -> splice f i [n] = f.
Proof. intros H. symmetry. now apply splice_eq. Qed.

(** Removing the second of two spliced nodes. *)
Lemma splice_remove_snd f i n x y :
  nth_error f i = Some n ->
  splice (splice f i [x; y]) (S i) [] = splice f i [x].
Proof.
  intros H. unfold splice.
  assert (Hl : List.length (firstn i f) = i) by apply (firstn_length_lt _ _ _ H).
  rewrite firstn_app, Hl.
  rewrite (@firstn_all2 _ (S i)) by lia.
  replace (S i - i) with 1 by lia.
  rewrite skipn_app, Hl.
  rewrite (@skipn_all2 _ (S (S i))) by lia.
  replace (S (S i) - i) with 2 by lia.
  simpl. now rewrite <- app_assoc.
Qed.

(* --------------------------------------------------------------------- *)
(** ** Inserting after a node *)

Lemma insert_adjacent_last f i w b :
  insert_adjacent f [i] w b =
  match nth_error f i with
  | None => None
  | Some n =>
      match w, n with
      | beforebegin, _ => Some (splice f i [b; n])
      | afterend, _ => Some (splice f i [n; b])
      | afterbegin, Element t a cs => Some (splice f i [Element t a (b :: cs)])
      | beforeend, Element t a cs => Some (splice f i [Element t a (cs ++ [b])])
      | _, Text _ => None
      end
  end.
Proof. reflexivity. Qed.

Lemma insert_adjacent_deep f i j p w b :
  insert_adjacent f (i :: j :: p) w b =
  match nth_error f i with
  | Some (Element t a cs) =>
      match insert_adjacent cs (j :: p) w b with
      | Some cs' => Some (splice f i [Element t a cs'])
      | None => None
      end
  | _ => None
  end.
Proof.
  simpl. destruct (nth_error f i) as [[t a cs|s]|]; reflexivity.
Qed.

Lemma node_at_deep f i j p :
  node_at f (i :: j :: p) =
  match nth_error f i with
  | Some n => node_at (children n) (j :: p)
  | None => None
  end.
Proof. reflexivity. Qed.

Lemma node_at_last f i : node_at f [i] = nth_error f i.
Proof. simpl. now destruct (nth_error f i). Qed.

Lemma node_at_Text_children s p : node_at (children (Text s)) p = None.
Proof. destruct p as [|[|i] p]; reflexivity. Qed.

(** Inserting after an existing node always succeeds. *)
Lemma insert_afterend_defined b p : forall f n,
  node_at f p = Some n ->
  exists f', insert_adjacent f p afterend b = Some f'.
Proof.
  induction p as [|i p IH]; intros f n H; [discriminate|].
  destruct p as [|j p].
  - rewrite insert_adjacent_last. rewrite node_at_last in H. rewrite H.
    eexists; reflexivity.
  - rewrite insert_adjacent_deep. rewrite node_at_deep in H.
    destruct (nth_error f i) as [[t a cs|s]|]; try discriminate.
    + simpl children in H.
      destruct (IH _ _ H) as [cs' ->]. eexists; reflexivity.
    + now rewrite node_at_Text_children in H.
Qed.

(** Case analysis on a successful insertion, following the reference. *)
Lemma insert_afterend_ind b (Q : list node -> path -> list node -> Prop) :
  (forall f i n, nth_error f i = Some n -> Q f [i] (splice f i [n; b])) ->
  (forall f i t a cs j p cs',
      nth_error f i = Some (Element t a cs) ->
      insert_adjacent cs (j :: p) afterend b = Some cs' ->
      Q cs (j :: p) cs' ->
      Q f (i :: j :: p) (splice f i [Element t a cs'])) ->
  forall p f f', insert_adjacent f p afterend b = Some f' -> Q f p f'.
Proof.
  intros Hlast Hdeep.
  induction p as [|i p IH]; intros f f' H; [discriminate|].
  destruct p as [|j p].
  - rewrite insert_adjacent_last in H.
    destruct (nth_error f i) as [n|] eqn:E; [|discriminate].
    inversion H; subst. now apply Hlast.
  - rewrite insert_adjacent_deep in H.
    destruct (nth_error f i) as [[t a cs|s]|] eqn:E; try discriminate.
    destruct (insert_adjacent cs (j :: p) afterend b) as [cs'|] eqn:E';
      [|discriminate].
    inversion H; subst. eapply Hdeep; eauto.
Qed.

(** The node the insertion was anchored at stays where it was. *)
Lemma insert_afterend_anchor b p f f' :
  insert_adjacent f p afterend b = Some f' -> node_at f' p = node_at f p.
Proof.
  revert p f f'. apply insert_afterend_ind.
  - intros f i n H. rewrite !node_at_last, H.
    now apply nth_error_splice_hd with (n := n).
  - intros f i t a cs j p cs' H _ IH.
    rewrite !node_at_deep, H, (nth_error_splice_hd _ _ _ _ _ H). exact IH.
Qed.

(** The new node is the next sibling of the anchor. *)
Lemma insert_afterend_next b p f f' :
  insert_adjacent f p afterend b = Some f' ->
  node_at f' (next_sibling p) = Some b.
Proof.
  revert p f f'. apply insert_afterend_ind.
  - intros f i n H. simpl next_sibling. rewrite node_at_last.
    now apply nth_error_splice_snd with (n := n).
  - intros f i t a cs j p cs' H _ IH.
    change (next_sibling (i :: j :: p)) with (i :: next_sibling (j :: p)).
    destruct (next_sibling (j :: p)) as [|k q] eqn:E; [discriminate|].
    now rewrite node_at_deep, (nth_error_splice_hd _ _ _ _ _ H).
Qed.

Lemma remove_at_last f i :
  remove_at f [i] =
  match nth_error f i with
  | None => None
  | Some _ => Some (splice f i [])
  end.
Proof. reflexivity. Qed.

Lemma remove_at_deep f i j p :
  remove_at f (i :: j :: p) =
  match nth_error f i with
  | Some (Element t a cs) =>
      match remove_at cs (j :: p) with
      | Some cs' => Some (splice f i [Element t a cs'])
      | None => None
      end
  | _ => None
  end.
Proof.
  simpl. destruct (nth_error f i) as [[t a cs|s]|]; reflexivity.
Qed.

(** Detaching the new node gives the old tree back. *)
Lemma insert_afterend_remove b p f f' :
  insert_adjacent f p afterend b = Some f' ->
  remove_at f' (next_sibling p) = Some f.
Proof.
  revert p f f'. apply insert_afterend_ind.
  - intros f i n H. simpl next_sibling. rewrite remove_at_last.
    rewrite (nth_error_splice_snd _ _ _ _ _ _ H).
    now rewrite (splice_remove_snd _ _ _ _ _ H), (splice_id _ _ _ H).
  - intros f i t a cs j p cs' H _ IH.
    change (next_sibling (i :: j :: p)) with (i :: next_sibling (j :: p)).
    destruct (next_sibling (j :: p)) as [|k q] eqn:E; [discriminate|].
    rewrite remove_at_deep, (nth_error_splice_hd _ _ _ _ _ H), IH.
    rewrite (splice_splice _ _ _ _ _ _ H). simpl app.
    now rewrite (splice_id _ _ _ H).
Qed.

(* --------------------------------------------------------------------- *)
(** ** Markup of a tree after an insertion *)

Lemma tokens_node_Element t a cs :
  tokens_node (Element t a cs) = Open t a :: tokens cs ++ [Close t].
Proof. reflexivity. Qed.

Lemma tokens_app l1 l2 : tokens (l1 ++ l2) = tokens l1 ++ tokens l2.
Proof.
  induction l1 as [|c l1 IH]; simpl; [reflexivity|].
  now rewrite IH, app_assoc.
Qed.

Lemma tokens_splice f i repl :
  tokens (splice f i repl) =
  tokens (firstn i f) ++ tokens repl ++ tokens (skipn (S i) f).
Proof. unfold splice. now rewrite !tokens_app. Qed.

Lemma tokens_split f i n :
  nth_error f i = Some n ->
  tokens f = tokens (firstn i f) ++ tokens_node n ++ tokens (skipn (S i) f).
Proof.
  intros H. rewrite (splice_eq f i n H) at 1.
  now rewrite tokens_app.
Qed.

(** The markup after the insertion is the markup before it with the
    markup of the new node put in at one place. *)
Lemma insert_afterend_tokens b p f f' :
  insert_adjacent f p afterend b = Some f' ->
  exists l1 l2,
    tokens f = l1 ++ l2 /\ tokens f' = l1 ++ tokens_node b ++ l2.
Proof.
  revert p f f'. apply insert_afterend_ind.
  - intros f i n H.
    exists (tokens (firstn i f) ++ tokens_node n), (tokens (skipn (S i) f)).
    rewrite tokens_splice, (tokens_split f i n H).
    change (tokens [n; b]) with (tokens_node n ++ tokens_node b ++ []).
    rewrite app_nil_r, <- !app_assoc. auto.
  - intros f i t a cs j p cs' H _ (l1 & l2 & E1 & E2).
    exists (tokens (firstn i f) ++ Open t a :: l1),
           (l2 ++ [Close t] ++ tokens (skipn (S i) f)).
    rewrite tokens_splice, (tokens_split f i _ H).
    change (tokens [Element t a cs'])
      with (tokens_node (Element t a cs') ++ []).
    rewrite !tokens_node_Element, E1, E2, app_nil_r.
    split; repeat (rewrite <- ?app_assoc; simpl); reflexivity.
Qed.

(* --------------------------------------------------------------------- *)
(** ** Traversal of a tree after an insertion *)

Lemma shift_nil p : shift p [] = [].
Proof. now destruct p. Qed.

Lemma shift_last_low i j q : j <= i -> shift [i] (j :: q) = j :: q.
Proof.
  intros H. simpl.
  assert ((i <? j)%nat = false) as -> by (apply Nat.ltb_ge; lia).
  reflexivity.
Qed.

Lemma shift_last_high i j q : i < j -> shift [i] (j :: q) = S j :: q.
Proof.
  intros H. simpl.
  assert ((i <? j)%nat = true) as -> by (apply Nat.ltb_lt; lia).
  reflexivity.
Qed.

Lemma shift_deep_eq i k p q :
  shift (i :: k :: p) (i :: q) = i :: shift (k :: p) q.
Proof. simpl. now rewrite Nat.eqb_refl. Qed.

Lemma shift_deep_ne i k p j q :
  j <> i -> shift (i :: k :: p) (j :: q) = j :: q.
Proof.
  intros H. simpl.
  assert ((i =? j)%nat = false) as -> by (apply Nat.eqb_neq; lia).
  reflexivity.
Qed.

Lemma shift_self p : shift p p = p.
Proof.
  induction p as [|i p IH]; [reflexivity|].
  destruct p as [|k p].
  - now apply shift_last_low.
  - now rewrite shift_deep_eq, IH.
Qed.

Section SelectSplice.

Variable P : list string -> node -> bool.

Lemma select_splice anc f i n repl :
  nth_error f i = Some n ->
  select_forest P anc 0 (splice f i repl) =
  select_forest P anc 0 (firstn i f) ++
  select_forest P anc i repl ++
  select_forest P anc (i + List.length repl) (skipn (S i) f).
Proof.
  intros H. unfold splice.
  now rewrite !select_forest_app, (firstn_length_lt _ _ _ H).
Qed.

Lemma select_split anc f i n :
  nth_error f i = Some n ->
  select_forest P anc 0 f =
  select_forest P anc 0 (firstn i f) ++
  map (cons i) (select_node P anc n) ++
  select_forest P anc (S i) (skipn (S i) f).
Proof.
  intros H. rewrite (splice_eq f i n H) at 1.
  rewrite select_forest_app, (firstn_length_lt _ _ _ H). reflexivity.
Qed.

Lemma select_forest_single anc i n :
  select_forest P anc i [n] = map (cons i) (select_node P anc n).
Proof. cbn [select_forest]. apply app_nil_r. Qed.

Lemma select_forest_pair anc i n m :
  select_forest P anc i [n; m] =
  map (cons i) (select_node P anc n) ++
  map (cons (S i)) (select_node P anc m).
Proof. cbn [select_forest]. now rewrite app_nil_r. Qed.

Lemma select_before_heads anc f i n p :
  nth_error f i = Some n ->
  In p (select_forest P anc 0 (firstn i f)) ->
  exists j q, p = j :: q /\ j < i.
Proof.
  intros H Hp.
  apply select_forest_heads in Hp as (j & q & -> & Hj).
  rewrite (firstn_length_lt _ _ _ H) in Hj.
  exists j, q. split; [reflexivity|lia].
Qed.

End SelectSplice.

(** Inserting a node that holds no selected node, after a node of a tree
    whose selection looks at tags only, leaves the selection as it was,
    each reference moved to its new place. *)
Section InsertSelect.

Variable P : list string -> node -> bool.
Variable b : node.
Hypothesis P_tag : forall anc t a cs cs',
  P anc (Element t a cs) = P anc (Element t a cs').
Hypothesis P_b : forall anc, select_node P anc b = [].

Lemma insert_afterend_select p f f' :
  insert_adjacent f p afterend b = Some f' ->
  forall anc,
    select_forest P anc 0 f' = map (shift p) (select_forest P anc 0 f).
Proof.
  revert p f f'.
  apply (insert_afterend_ind b (fun f p f' => forall anc,
    select_forest P anc 0 f' = map (shift p) (select_forest P anc 0 f))).
  - intros f i n H anc.
    rewrite (select_splice P anc f i n [n; b] H), (select_split P anc f i n H).
    rewrite !map_app. f_equal; [|f_equal].
    + symmetry. erewrite map_ext_in; [apply map_id|].
      intros x Hx.
      destruct (select_before_heads P anc f i _ x H Hx) as (j & q & -> & Hj).
      apply shift_last_low. lia.
    + rewrite select_forest_pair, P_b, app_nil_r, map_map.
      apply map_ext. intros q. symmetry. now apply shift_last_low.
    + simpl List.length.
      replace (i + 2) with (1 + S i) by lia.
      rewrite select_forest_bump.
      apply map_ext_in. intros x Hx.
      apply select_forest_heads in Hx as (j & q & -> & Hj).
      simpl bump. symmetry. apply shift_last_high. lia.
  - intros f i t a cs j p cs' H _ IH anc.
    rewrite (select_splice P anc f i _ [Element t a cs'] H),
            (select_split P anc f i _ H).
    rewrite !map_app. f_equal; [|f_equal].
    + symmetry. erewrite map_ext_in; [apply map_id|].
      intros x Hx.
      destruct (select_before_heads P anc f i _ x H Hx) as (k & q & -> & Hk).
      apply shift_deep_ne. lia.
    + rewrite select_forest_single, map_map.
      rewrite !select_node_Element, IH, (P_tag anc t a cs' cs).
      rewrite !map_app, !map_map. apply (f_equal2 (@app path)).
      * destruct (P anc (Element t a cs)); [|reflexivity].
        cbn [map]. now rewrite shift_deep_eq, shift_nil.
      * apply map_ext. intros q. now rewrite shift_deep_eq.
    + simpl List.length. rewrite Nat.add_1_r.
      symmetry. erewrite map_ext_in; [apply map_id|].
      intros x Hx.
      apply select_forest_heads in Hx as (k & q & -> & Hk).
      apply shift_deep_ne. lia.
Qed.

End InsertSelect.

(** Inserting a selected node with nothing selected inside it, after an
    anchor that no selected node can hold, adds one to the selection. *)
Section InsertCount.

Variable g : node -> bool.
Variable b : node.
Variable anchor : node -> Prop.
Hypothesis g_b : forall anc, select_node (fun _ => g) anc b = [[]].
Hypothesis g_anchor : forall t a cs q m,
  node_at cs q = Some m -> anchor m -> g (Element t a cs) = false.

Lemma select_length_offset (P : list string -> node -> bool) anc i l :
  List.length (select_forest P anc i l) =
  List.length (select_forest P anc 0 l).
Proof.
  rewrite <- (Nat.add_0_r i) at 1.
  now rewrite select_forest_bump, length_map.
Qed.

Lemma insert_afterend_count p f f' :
  insert_adjacent f p afterend b = Some f' ->
  (exists m, node_at f p = Some m /\ anchor m) ->
  forall anc,
    List.length (select_forest (fun _ => g) anc 0 f') =
    S (List.length (select_forest (fun _ => g) anc 0 f)).
Proof.
  revert p f f'.
  apply (insert_afterend_ind b (fun f p f' =>
    (exists m, node_at f p = Some m /\ anchor m) ->
    forall anc,
      List.length (select_forest (fun _ => g) anc 0 f') =
      S (List.length (select_forest (fun _ => g) anc 0 f)))).
  - intros f i n H _ anc.
    rewrite (select_splice _ anc f i n [n; b] H), (select_split _ anc f i n H).
    rewrite select_forest_pair, g_b.
    rewrite !length_app, !length_map.
    rewrite (select_length_offset _ anc (i + _)).
    rewrite (select_length_offset _ anc (S i)).
    unfold path in *. cbn [List.length]. lia.
  - intros f i t a cs j p cs' H Hins IH (m & Hm & Ha) anc.
    rewrite node_at_deep, H in Hm. simpl children in Hm.
    rewrite (select_splice _ anc f i _ [Element t a cs'] H),
            (select_split _ anc f i _ H).
    rewrite select_forest_single, !select_node_Element.
    rewrite (g_anchor t a cs (j :: p) m Hm Ha).
    rewrite (g_anchor t a cs' (j :: p) m); auto.
    2:{ now rewrite (insert_afterend_anchor _ _ _ _ Hins). }
    rewrite !length_app, !length_map. cbn [app].
    rewrite (IH (ex_intro _ m (conj Hm Ha))).
    rewrite (select_length_offset _ anc (i + _)).
    rewrite (select_length_offset _ anc (S i)).
    unfold path in *. cbn [List.length]. lia.
Qed.

End InsertCount.

(* --------------------------------------------------------------------- *)
(** ** Places after an insertion *)

Lemma next_sibling_cons i j p :
  next_sibling (i :: j :: p) = i :: next_sibling (j :: p).
Proof. reflexivity. Qed.

Lemma next_sibling_nonempty i p : next_sibling (i :: p) <> [].
Proof. destruct p; discriminate. Qed.

Lemma next_sibling_inj p : forall q,
  next_sibling p = next_sibling q -> p = q.
Proof.
  induction p as [|i p IH]; intros [|j q] H.
  - reflexivity.
  - symmetry in H. now apply next_sibling_nonempty in H.
  - now apply next_sibling_nonempty in H.
  - destruct p as [|i' p], q as [|j' q].
    + inversion H. reflexivity.
    + rewrite next_sibling_cons in H. inversion H; subst.
      symmetry in H2. now apply next_sibling_nonempty in H2.
    + rewrite next_sibling_cons in H. inversion H; subst.
      now apply next_sibling_nonempty in H2.
    + rewrite !next_sibling_cons in H. inversion H; subst.
      f_equal. now apply IH.
Qed.

(** What followed the anchor follows the new node. *)
Lemma insert_afterend_later b p f f' :
  insert_adjacent f p afterend b = Some f' ->
  node_at f' (next_sibling (next_sibling p)) = node_at f (next_sibling p).
Proof.
  revert p f f'. apply insert_afterend_ind.
  - intros f i n H. simpl next_sibling. rewrite !node_at_last.
    replace (S (S i)) with (i + 2) by lia.
    rewrite (nth_error_splice_at _ _ _ _ 2 H).
    change (nth_error ([n; b] ++ skipn (S i) f) 2)
      with (nth_error (skipn (S i) f) 0).
    rewrite nth_error_skipn. f_equal. lia.
  - intros f i t a cs j p cs' H _ IH.
    assert (Hstep : forall g q, q <> [] ->
              node_at g (i :: q) =
              match nth_error g i with
              | Some n => node_at (children n) q
              | None => None
              end).
    { intros g [|k q] Hq; [congruence|reflexivity]. }
    assert (Hcons : forall q, q <> [] ->
              next_sibling (i :: q) = i :: next_sibling q).
    { intros [|k q] Hq; [congruence|reflexivity]. }
    pose proof (next_sibling_nonempty j p) as N1.
    assert (N2 : next_sibling (next_sibling (j :: p)) <> []).
    { destruct (next_sibling (j :: p)) as [|k q]; [congruence|].
      apply next_sibling_nonempty. }
    rewrite next_sibling_cons, (Hcons _ N1).
    rewrite (Hstep _ _ N2), (Hstep _ _ N1).
    rewrite H, (nth_error_splice_hd _ _ _ _ _ H). exact IH.
Qed.

Lemma same_node_refl n : same_node n n.
Proof. destruct n; simpl; auto. Qed.

Lemma nth_error_splice_before f i n (repl : list node) k :
  nth_error f i = Some n -> k < i ->
  nth_error (splice f i repl) k = nth_error f k.
Proof.
  intros H Hk. unfold splice.
  rewrite nth_error_app1 by (rewrite (firstn_length_lt _ _ _ H); exact Hk).
  rewrite nth_error_firstn.
  now apply Nat.ltb_lt in Hk as ->.
Qed.

Lemma nth_error_splice_after f i n (repl : list node) k :
  nth_error f i = Some n -> i < k ->
  nth_error (splice f i repl) (k + List.length repl - 1) = nth_error f k.
Proof.
  intros H Hk.
  replace (k + List.length repl - 1)
    with (i + (List.length repl + (k - S i))) by lia.
  rewrite (nth_error_splice_at _ _ _ _ _ H).
  rewrite nth_error_app2 by lia.
  rewrite nth_error_skipn. f_equal. lia.
Qed.

Lemma node_at_head f g k k' q :
  nth_error g k' = nth_error f k ->
  node_at g (k' :: q) = node_at f (k :: q).
Proof. intros H. simpl. now rewrite H. Qed.

Lemma shift_nonempty p k q : shift p (k :: q) <> [].
Proof.
  destruct p as [|i [|j p]]; simpl; try discriminate.
  - now destruct (i <? k)%nat.
  - now destruct (i =? k)%nat.
Qed.

(** Every node of the tree is in the tree after the insertion, at the
    place [shift] gives. *)
Lemma insert_afterend_nodes b p f f' :
  insert_adjacent f p afterend b = Some f' ->
  forall q n, node_at f q = Some n ->
  exists n', node_at f' (shift p q) = Some n' /\ same_node n n'.
Proof.
  revert p f f'.
  apply (insert_afterend_ind b (fun f p f' =>
    forall q n, node_at f q = Some n ->
    exists n', node_at f' (shift p q) = Some n' /\ same_node n n')).
  - intros f i n0 H [|k q] n Hn; [discriminate|].
    exists n. split; [|apply same_node_refl].
    destruct (Nat.lt_trichotomy k i) as [Hk|[->|Hk]].
    + rewrite shift_last_low by lia. rewrite <- Hn.
      apply node_at_head. now apply nth_error_splice_before with (n := n0).
    + rewrite shift_last_low by lia. rewrite <- Hn.
      apply node_at_head.
      now rewrite (nth_error_splice_hd _ _ _ _ _ H), H.
    + rewrite shift_last_high by lia. rewrite <- Hn.
      apply node_at_head.
      pose proof (nth_error_splice_after f i n0 [n0; b] k H Hk) as E.
      cbn [List.length] in E.
      now replace (k + 2 - 1) with (S k) in E by lia.
  - intros f i t a cs j p cs' H _ IH [|k q] n Hn; [discriminate|].
    destruct (Nat.eq_dec k i) as [->|Hk].
    + rewrite shift_deep_eq. destruct q as [|k' q].
      * rewrite shift_nil. rewrite node_at_last, H in Hn.
        inversion Hn; subst.
        exists (Element t a cs'). split; [|simpl; auto].
        rewrite node_at_last. now apply nth_error_splice_hd with (n := Element t a cs).
      * rewrite node_at_deep, H in Hn. simpl children in Hn.
        destruct (IH _ _ Hn) as (n' & Hn' & Hs).
        exists n'. split; [|exact Hs].
        destruct (shift (j :: p) (k' :: q)) as [|x y] eqn:E;
          [now apply shift_nonempty in E|].
        now rewrite node_at_deep, (nth_error_splice_hd _ _ _ _ _ H).
    + rewrite shift_deep_ne by exact Hk.
      exists n. split; [|apply same_node_refl]. rewrite <- Hn.
      apply node_at_head.
      destruct (Nat.lt_ge_cases k i) as [Hlt|Hge].
      * now apply nth_error_splice_before with (n := Element t a cs).
      * pose proof (nth_error_splice_after f i _ [Element t a cs'] k H) as E.
        cbn [List.length] in E.
        replace (k + 1 - 1) with k in E by lia. apply E. lia.
Qed.

(** The places [shift] gives are in the order the places were in. *)
Lemma shift_order p : forall q1 q2,
  doc_before q1 q2 = true -> doc_before (shift p q1) (shift p q2) = true.
Proof.
  induction p as [|i p IH]; intros q1 q2 H; [exact H|].
  destruct q1 as [|a q1], q2 as [|c q2]; try discriminate H.
  - rewrite shift_nil.
    destruct (shift (i :: p) (c :: q2)) as [|x y] eqn:E;
      [now apply shift_nonempty in E|reflexivity].
  - simpl in H. apply orb_true_iff in H as [H|H].
    + apply Nat.ltb_lt in H.
      assert (Hlt : forall x y q q', x < y ->
                doc_before (x :: q) (y :: q') = true).
      { intros x y q q' Hxy. cbn [doc_before].
        apply orb_true_iff; left. now apply Nat.ltb_lt. }
      destruct p as [|k p].
      * destruct (Nat.lt_ge_cases i a) as [Ha|Ha];
          [rewrite (shift_last_high i a q1 Ha)
          |rewrite (shift_last_low i a q1 Ha)];
          (destruct (Nat.lt_ge_cases i c) as [Hc|Hc];
           [rewrite (shift_last_high i c q2 Hc)
           |rewrite (shift_last_low i c q2 Hc)]);
          apply Hlt; lia.
      * destruct (Nat.eq_dec a i) as [->|Ha];
          [rewrite shift_deep_eq|rewrite (shift_deep_ne i k p a q1 Ha)];
          (destruct (Nat.eq_dec c i) as [->|Hc];
           [rewrite shift_deep_eq|rewrite (shift_deep_ne i k p c q2 Hc)]);
          apply Hlt; lia.
    + apply andb_true_iff in H as [E H]. apply Nat.eqb_eq in E; subst c.
      destruct p as [|k p].
      * destruct (Nat.lt_ge_cases i a) as [Ha|Ha];
          [rewrite !(shift_last_high i a _ Ha)
          |rewrite !(shift_last_low i a _ Ha)];
          now rewrite doc_before_cons.
      * destruct (Nat.eq_dec a i) as [->|Ha].
        -- rewrite !shift_deep_eq, doc_before_cons. now apply IH.
        -- rewrite !(shift_deep_ne i k p a _ Ha). now rewrite doc_before_cons.
Qed.

Lemma length_one_In (A : Type) (x : A) l :
  List.length l = 1 -> In x l -> l = [x].
Proof.
  destruct l as [|y [|z l]]; simpl; try discriminate.
  now intros _ [->|[]].
Qed.

End DomFacts.

(* ===================================================================== *)
(** * Facts about the scripts *)
(* ===================================================================== *)

Module ScriptFacts.
Import Dom Js Scripts DomFacts.

Lemma up_article anc :
  (fix up (l : list string) : bool :=
     match l with
     | [] => false
     | t' :: l' => matches (Type_sel "article") t' l' || up l'
     end) anc = true <-> In "article" anc.
Proof.
  induction anc as [|t anc IH]; simpl; [intuition discriminate|].
  rewrite orb_true_iff, IH, String.eqb_eq. intuition congruence.
Qed.

(** What ["article h1, article h2"] matches. *)
Lemma matches_article_headings anc n :
  matches_any article_headings anc n = true <->
  is_heading n = true /\ In "article" anc.
Proof.
  destruct n as [t a cs|s]; simpl; [|intuition discriminate].
  rewrite orb_false_r, !orb_true_iff, !andb_true_iff, !up_article.
  tauto.
Qed.

Lemma is_heading_tag n :
  is_heading n = true <->
  exists t a cs, n = Element t a cs /\ (t = "h1" \/ t = "h2").
Proof.
  destruct n as [t a cs|s]; simpl.
  - rewrite orb_true_iff, !String.eqb_eq. split.
    + intros H. now exists t, a, cs.
    + intros (t' & a' & cs' & E & H). inversion E; subst. exact H.
  - split; [discriminate|]. intros (t & a & cs & E & _). discriminate.
Qed.

Lemma querySelectorAll_In d p :
  In p (querySelectorAll d article_headings) <->
  exists n, node_at d p = Some n /\ is_heading n = true /\
            In "article" (ancestor_tags d p []).
Proof.
  unfold querySelectorAll. rewrite select_forest_In.
  split; intros (n & H1 & H2); exists n;
    (split; [exact H1|]); now apply matches_article_headings.
Qed.

Lemma querySelectorAll_qualifying d p :
  In p (querySelectorAll d article_headings) <-> qualifying d p.
Proof.
  rewrite querySelectorAll_In. unfold qualifying. split.
  - intros (n & H1 & H2 & H3).
    apply is_heading_tag in H2 as (t & a & cs & -> & Ht).
    now exists t, a, cs.
  - intros (t & a & cs & H1 & Ht & H3).
    exists (Element t a cs). split; [exact H1|]. split; [|exact H3].
    apply is_heading_tag. now exists t, a, cs.
Qed.

Lemma querySelector_In d p :
  querySelector d article_headings = Some p ->
  In p (querySelectorAll d article_headings).
Proof.
  unfold querySelector.
  destruct (querySelectorAll d article_headings); simpl; [discriminate|].
  intros H; inversion H. now left.
Qed.

(** An element below an [article] is not a child of the [Document]. *)
Lemma below_article_depth d p :
  In "article" (ancestor_tags d p []) -> exists i j q, p = i :: j :: q.
Proof.
  destruct p as [|i [|j q]]; simpl; try tauto.
  intros _. now exists i, j, q.
Qed.

(* --------------------------------------------------------------------- *)
(** ** Bylines *)

Ltac split_andb H :=
  repeat match type of H with
         | (_ && _)%bool = true =>
             let H' := fresh "E" in
             apply andb_true_iff in H as [H H']
         end.

(** A byline is the block [byline_element] builds, for some image source
    and some label. *)
Lemma byline_parts_shape n src label :
  byline_parts n = Some (src, label) ->
  n = byline_element src label /\ String.prefix "By " label = true.
Proof.
  unfold byline_parts. intros H.
  repeat match type of H with
         | context [match ?x with _ => _ end] =>
             is_var x; destruct x; try discriminate H
         end.
  match type of H with
  | (if ?c then _ else _) = _ => destruct c eqn:E; [|discriminate H]
  end.
  inversion H; subst. split_andb E.
  repeat match goal with
         | X : String.eqb _ _ = true |- _ => apply String.eqb_eq in X; subst
         end.
  split; [reflexivity|assumption].
Qed.

Lemma is_byline_shape n :
  is_byline n = true ->
  exists src label, n = byline_element src label /\
                    String.prefix "By " label = true.
Proof.
  unfold is_byline. destruct (byline_parts n) as [[src label]|] eqn:E;
    [|discriminate].
  intros _. exists src, label. now apply byline_parts_shape.
Qed.

Lemma byline_parts_element src label :
  String.prefix "By " label = true ->
  byline_parts (byline_element src label) = Some (src, label).
Proof. intros H. cbn. now rewrite H. Qed.

Lemma is_byline_avatarDiv v : is_byline (avatarDiv v) = true.
Proof. now destruct v. Qed.

(** Nothing inside a byline is a byline. *)
Lemma select_byline_self anc b :
  is_byline b = true -> select_node (fun _ => is_byline) anc b = [[]].
Proof.
  intros H. destruct (is_byline_shape b H) as (src & label & -> & Hl).
  unfold byline_element. rewrite select_node_Element.
  fold (byline_element src label). rewrite H. reflexivity.
Qed.

(** Nothing inside a byline is a heading, so nothing that holds a
    heading is a byline. *)
Lemma heading_not_in_byline t a cs q m :
  node_at cs q = Some m -> is_heading m = true ->
  is_byline (Element t a cs) = false.
Proof.
  intros Hq Hm.
  destruct (is_byline (Element t a cs)) eqn:E; [exfalso|reflexivity].
  destruct (is_byline_shape _ E) as (src & label & Eq & _).
  inversion Eq; subst. clear Eq E.
  assert (Hnil : forall r, node_at [] r = None)
    by (intros [|[|k] r]; reflexivity).
  assert (Hleaf : forall s r, node_at [Text s] r = Some m -> False).
  { intros s [|[|k] [|j r]] Hr; try discriminate Hr.
    - inversion Hr; subst. discriminate Hm.
    - rewrite node_at_zero in Hr. simpl children in Hr.
      now rewrite Hnil in Hr.
    - now destruct k.
    - now destruct k. }
  destruct q as [|k q]; [discriminate|].
  do 5 (destruct k as [|k];
        [ destruct q as [|j q];
          [ inversion Hq; subst; discriminate Hm
          | rewrite node_at_zero in Hq; simpl children in Hq;
            first [ now rewrite Hnil in Hq | now apply Hleaf in Hq ] ]
        | rewrite node_at_cons_S in Hq ]).
  now rewrite Hnil in Hq.
Qed.

(** The block holds no element the heading query matches. *)
Lemma select_headings_avatarDiv v anc :
  select_node (matches_any article_headings) anc (avatarDiv v) = [].
Proof. now destruct v. Qed.

(* --------------------------------------------------------------------- *)
(** ** One run of a listener *)

Lemma position_afterend : position_of_string "afterend" = Some afterend.
Proof. reflexivity. Qed.

(** A run looks the heading up and, if there is one, inserts the block
    after it. *)
Lemma handler_unfold v d :
  handler v d =
  match querySelector d article_headings with
  | Some h => run (browser_insertAdjacentElement h "afterend" (avatarDiv v)) d
  | None => Normal d
  end.
Proof.
  destruct v; unfold handler, run, listener, AuthorAvatar.listener,
    Readme.listener, bind, host;
    cbn [querySelector_ browser browser_querySelector];
    destruct (querySelector d article_headings); reflexivity.
Qed.

Lemma insertAdjacentElement_afterend h v d n :
  node_at d h = Some n -> is_element n = true ->
  (exists i j q, h = i :: j :: q) ->
  exists d',
    insert_adjacent d h afterend (avatarDiv v) = Some d' /\
    run (browser_insertAdjacentElement h "afterend" (avatarDiv v)) d =
    Normal d'.
Proof.
  intros Hn He (i & j & q & ->).
  destruct (insert_afterend_defined (avatarDiv v) _ _ _ Hn) as [d' Hd].
  exists d'. split; [exact Hd|].
  unfold run, browser_insertAdjacentElement.
  rewrite Hn, position_afterend, Hd.
  destruct n; [|discriminate]. now destruct v.
Qed.

Lemma handler_found v d h :
  querySelector d article_headings = Some h ->
  exists d',
    insert_adjacent d h afterend (avatarDiv v) = Some d' /\
    handler v d = Normal d'.
Proof.
  intros Hq. rewrite handler_unfold, Hq.
  apply querySelector_In, querySelectorAll_In in Hq
    as (n & Hn & Hh & Ha).
  apply insertAdjacentElement_afterend with (n := n); auto.
  - now destruct n.
  - now apply below_article_depth with (d := d).
Qed.

Lemma handler_not_found v d :
  querySelector d article_headings = None -> handler v d = Normal d.
Proof. intros Hq. now rewrite handler_unfold, Hq. Qed.

(** Two listeners in a row. *)
Lemma run_seq (m1 m2 : M unit) d :
  run (m1 ;; m2)%js d =
  match run m1 d with
  | Normal d1 => run m2 d1
  | Throw e => Throw e
  end.
Proof.
  unfold run, bind. destruct (m1 d) as [[[] d1]|e]; reflexivity.
Qed.

Lemma handler_twice_unfold v d :
  handler_twice v d =
  match handler v d with
  | Normal d1 => handler v d1
  | Throw e => Throw e
  end.
Proof. unfold handler_twice, handler. apply run_seq. Qed.

(* --------------------------------------------------------------------- *)
(** ** The document after an insertion *)

(** The bylines after one insertion. *)
Lemma bylines_after_insert v d h d' :
  insert_adjacent d h afterend (avatarDiv v) = Some d' ->
  (exists m, node_at d h = Some m /\ is_heading m = true) ->
  List.length (bylines d') = S (List.length (bylines d)).
Proof.
  intros Hi Hm. unfold bylines.
  apply insert_afterend_count
    with (b := avatarDiv v) (anchor := fun m => is_heading m = true) (p := h);
    auto.
  - intros anc. apply select_byline_self, is_byline_avatarDiv.
  - intros. eapply heading_not_in_byline; eauto.
Qed.

(** The headings after one insertion. *)
Lemma headings_after_insert v d h d' :
  insert_adjacent d h afterend (avatarDiv v) = Some d' ->
  querySelectorAll d' article_headings =
  map (shift h) (querySelectorAll d article_headings).
Proof.
  intros Hi. unfold querySelectorAll.
  apply insert_afterend_select with (b := avatarDiv v); auto.
  intros anc. apply select_headings_avatarDiv.
Qed.

Lemma byline_at_In d p b :
  node_at d p = Some b -> is_byline b = true -> In p (bylines d).
Proof.
  intros H Hb. unfold bylines. apply select_forest_In. now exists b.
Qed.

Lemma heading_at d h :
  querySelector d article_headings = Some h ->
  exists m, node_at d h = Some m /\ is_heading m = true.
Proof.
  intros Hq. apply querySelector_In, querySelectorAll_In in Hq
    as (n & Hn & Hh & _). now exists n.
Qed.

(** All that one run that finds a heading does. *)
Lemma handler_effect v d h :
  querySelector d article_headings = Some h ->
  exists d',
    handler v d = Normal d' /\
    insert_adjacent d h afterend (avatarDiv v) = Some d' /\
    node_at d' h = node_at d h /\
    node_at d' (next_sibling h) = Some (avatarDiv v) /\
    List.length (bylines d') = S (List.length (bylines d)) /\
    querySelectorAll d' article_headings =
      map (shift h) (querySelectorAll d article_headings).
Proof.
  intros Hq. destruct (handler_found v d h Hq) as (d' & Hi & Hr).
  exists d'. repeat split; auto.
  - now apply insert_afterend_anchor with (b := avatarDiv v).
  - now apply insert_afterend_next with (f := d).
  - apply bylines_after_insert with (v := v) (h := h); auto.
    now apply heading_at.
  - now apply headings_after_insert with (v := v).
Qed.

(** A page without bylines has exactly the new one after a run. *)
Lemma bylines_single v d h d' :
  bylines d = [] ->
  node_at d' (next_sibling h) = Some (avatarDiv v) ->
  List.length (bylines d') = S (List.length (bylines d)) ->
  bylines d' = [next_sibling h].
Proof.
  intros H0 Hn Hl. rewrite H0 in Hl.
  apply length_one_In; [exact Hl|].
  apply byline_at_In with (b := avatarDiv v); auto.
  apply is_byline_avatarDiv.
Qed.

(* --------------------------------------------------------------------- *)
(** ** Slashes *)

Lemma substring_empty n m : substring n m EmptyString = EmptyString.
Proof. destruct n, m; reflexivity. Qed.

(** The fixed part of the image URL holds no two slashes in a row. *)
Lemma fixed_path_no_double_slash n :
  substring n 2 (site_base_path ++ image_sub_path)%string <> "//".
Proof.
  do 44 (destruct n as [|n]; [discriminate|]).
  change (substring n 2 EmptyString <> "//").
  rewrite substring_empty. discriminate.
Qed.

(** Put after an origin that does not end in a slash, the fixed part
    adds no two slashes in a row: any such pair lies inside the origin. *)
Lemma double_slash_inside_origin origin :
  trailing_slashes origin = 0 ->
  forall n,
    substring n 2 (origin ++ site_base_path ++ image_sub_path)%string = "//" ->
    n + 2 <= String.length origin.
Proof.
  induction origin as [|c o IH]; intros Ht n Hn.
  - now apply fixed_path_no_double_slash in Hn.
  - assert (Ho : trailing_slashes o = 0).
    { simpl in Ht. now destruct (is_slash c && all_slashes o). }
    destruct n as [|n].
    + destruct o as [|c' o]; [|simpl; lia].
      exfalso. simpl in Hn. inversion Hn; subst. discriminate Ht.
    + simpl in Hn. apply (IH Ho) in Hn. simpl. lia.
Qed.

(* --------------------------------------------------------------------- *)
(** ** A run on any host *)

(** How a run of [docs/js/author-avatar.js] ends, access by access. *)
Lemma run_author_avatar (api : DomApi) d :
  run AuthorAvatar.listener d =
  match querySelector_ article_headings d with
  | Throw e => Throw e
  | Normal (None, d0) => Normal d0
  | Normal (Some h, d0) =>
      match createElement_ "div" d0 with
      | Throw e => Throw e
      | Normal (n1, d1) =>
          match set_style n1 container_style d1 with
          | Throw e => Throw e
          | Normal (n2, d2) =>
              match set_innerHTML n2 AuthorAvatar.avatar_markup d2 with
              | Throw e => Throw e
              | Normal (n3, d3) =>
                  match insertAdjacentElement h "afterend" n3 d3 with
                  | Throw e => Throw e
                  | Normal (_, d4) => Normal d4
                  end
              end
          end
      end
  end.
Proof.
  unfold run, AuthorAvatar.listener, bind.
  destruct (querySelector_ article_headings d) as [[[h|] d0]|e0];
    try reflexivity.
  destruct (createElement_ "div" d0) as [[n1 d1]|e1]; try reflexivity.
  destruct (set_style n1 container_style d1) as [[n2 d2]|e2];
    try reflexivity.
  destruct (set_innerHTML n2 AuthorAvatar.avatar_markup d2)
    as [[n3 d3]|e3]; reflexivity.
Qed.

(** How a run of the [README.md] script ends, access by access. *)
Lemma run_readme (api : DomApi) d :
  run Readme.listener d =
  match querySelector_ article_headings d with
  | Throw e => Throw e
  | Normal (None, d0) => Normal d0
  | Normal (Some h, d0) =>
      match createElement_ "div" d0 with
      | Throw e => Throw e
      | Normal (n1, d1) =>
          match location_origin d1 with
          | Throw e => Throw e
          | Normal (origin, d1') =>
              match set_style n1 container_style d1' with
              | Throw e => Throw e
              | Normal (n2, d2) =>
                  match set_innerHTML n2
                          (Readme.avatar_markup (Readme.image_url origin))
                          d2 with
                  | Throw e => Throw e
                  | Normal (n3, d3) =>
                      match insertAdjacentElement h "afterend" n3 d3 with
                      | Throw e => Throw e
                      | Normal (_, d4) => Normal d4
                      end
                  end
              end
          end
      end
  end.
Proof.
  unfold run, Readme.listener, bind.
  destruct (querySelector_ article_headings d) as [[[h|] d0]|e0];
    try reflexivity.
  destruct (createElement_ "div" d0) as [[n1 d1]|e1]; try reflexivity.
  destruct (location_origin d1) as [[origin d1']|e1']; try reflexivity.
  destruct (set_style n1 container_style d1') as [[n2 d2]|e2];
    try reflexivity.
  destruct (set_innerHTML n2 (Readme.avatar_markup (Readme.image_url origin))
              d2) as [[n3 d3]|e3]; reflexivity.
Qed.

End ScriptFacts.

(* ===================================================================== *)
(** * The specification, claim by claim *)
(* ===================================================================== *)

Import Dom Js Scripts DomFacts ScriptFacts.

(** The first scenario of the specification: the page
    [<article><h1>Title</h1><p>Body</p></article>]. *)
Example scenario_title_body :
  handler Relative page_title_body =
  Normal
    [Element "article" []
       [Element "h1" [] [Text "Title"];
        byline_element "images/labeeb.jpg" "By labeeb";
        Element "p" [] [Text "Body"]]].
Proof. reflexivity. Qed.

Example scenario_no_heading :
  handler Relative page_no_heading = Normal page_no_heading.
Proof. reflexivity. Qed.

Lemma querySelector_hd d h rest :
  querySelectorAll d article_headings = h :: rest ->
  querySelector d article_headings = Some h.
Proof. intros H. unfold querySelector. now rewrite H. Qed.

(** C1.  On a page whose article scope holds exactly one level-1 or
    level-2 heading, and which holds no byline when it is delivered, one
    run of the readiness handler ends normally and leaves exactly one
    byline in the document; that byline is the block the script built
    and it is the immediate next sibling of the heading, which is still
    the page's only qualifying heading. *)
Theorem single_heading_one_byline v d h :
  querySelectorAll d article_headings = [h] ->
  bylines d = [] ->
  exists d',
    handler v d = Normal d' /\
    bylines d' = [next_sibling h] /\
    node_at d' (next_sibling h) = Some (avatarDiv v) /\
    node_at d' h = node_at d h /\
    querySelectorAll d' article_headings = [h].
Proof.
  intros Hall Hnone.
  destruct (handler_effect v d h (querySelector_hd d h [] Hall))
    as (d' & Hr & _ & Hh & Hn & Hl & Hq).
  exists d'. repeat split; auto.
  - now apply bylines_single with (v := v) (d := d).
  - rewrite Hq, Hall. simpl. now rewrite shift_self.
Qed.

Lemma single_heading_one_byline_witness :
  exists d',
    handler Relative page_title_body = Normal d' /\
    bylines d' = [[0; 1]] /\
    node_at d' [0; 1] = Some (avatarDiv Relative) /\
    node_at d' [0; 0] = node_at page_title_body [0; 0] /\
    querySelectorAll d' article_headings = [[0; 0]].
Proof.
  apply (single_heading_one_byline Relative page_title_body [0; 0]);
    reflexivity.
Defined.

(** C2, as stated, fails: on a page whose article holds an [h2] followed
    by an [h1], a level-1 heading exists in the article scope and yet the
    element the lookup returns is the [h2]. *)
Lemma h2_before_h1_counterexample :
  ~ ((exists q a cs,
        node_at page_h2_before_h1 q = Some (Element "h1" a cs) /\
        In "article" (ancestor_tags page_h2_before_h1 q [])) ->
     exists p a cs,
       querySelector page_h2_before_h1 article_headings = Some p /\
       node_at page_h2_before_h1 p = Some (Element "h1" a cs)).
Proof.
  intros H. destruct H as (p & a & cs & Hq & Hn).
  - exists [0; 0; 0; 1], [], [Text "Title"]. split; [reflexivity|].
    simpl. auto.
  - vm_compute in Hq. inversion Hq; subst. discriminate Hn.
Qed.

(** C2, amended.  The lookup returns the first element in tree order
    that is a level-1 or level-2 heading below an [article], whatever
    its level: a reference is returned exactly when it names such a
    heading and every other such heading comes later in tree order; and
    [null] is returned exactly when the page holds no such heading. *)
Theorem first_heading_in_tree_order d :
  (forall p,
     querySelector d article_headings = Some p <->
     qualifying d p /\
     forall q, qualifying d q -> q = p \/ doc_before p q = true) /\
  (querySelector d article_headings = None <->
   forall q, ~ qualifying d q).
Proof.
  pose proof (select_forest_sorted (matches_any article_headings) d [] 0)
    as Hs.
  fold (querySelectorAll d article_headings) in Hs.
  unfold querySelector.
  destruct (querySelectorAll d article_headings) as [|x l] eqn:E; simpl.
  - split.
    + intros p. split; [discriminate|].
      intros [Hp _]. apply querySelectorAll_qualifying in Hp.
      rewrite E in Hp. destruct Hp.
    + split; [|reflexivity].
      intros _ q Hq. apply querySelectorAll_qualifying in Hq.
      rewrite E in Hq. destruct Hq.
  - split.
    + intros p. split.
      * intros Hp. inversion Hp; subst. split.
        -- apply querySelectorAll_qualifying. rewrite E. now left.
        -- intros q Hq. apply querySelectorAll_qualifying in Hq.
           rewrite E in Hq.
           apply (StronglySorted_hd_least _ _ _ _ _ Hs Hq).
      * intros [Hp Hmin]. f_equal.
        apply querySelectorAll_qualifying in Hp. rewrite E in Hp.
        destruct (StronglySorted_hd_least _ _ _ _ _ Hs Hp) as [->|Hxp];
          [reflexivity|].
        assert (Hx : qualifying d x).
        { apply querySelectorAll_qualifying. rewrite E. now left. }
        destruct (Hmin x Hx) as [->|Hpx]; [reflexivity|].
        unfold lt_doc in Hxp. apply doc_before_asym in Hxp. congruence.
    + split; [discriminate|].
      intros Hno. exfalso. apply (Hno x).
      apply querySelectorAll_qualifying. rewrite E. now left.
Qed.

(** C3, as stated, fails: the listener run twice on the sample page
    leaves two bylines. *)
Lemma run_twice_counterexample :
  ~ (forall d',
       handler_twice Relative page_title_body = Normal d' ->
       List.length (bylines d') <= 1).
Proof.
  intros H.
  assert (E : exists d',
             handler_twice Relative page_title_body = Normal d' /\
             List.length (bylines d') = 2)
    by (eexists; split; reflexivity).
  destruct E as (d' & E1 & E2). specialize (H d' E1). lia.
Qed.

(** C3, amended.  The listener keeps no record of having run.  Each run
    ends normally and inserts at most one byline: none when the page has
    no qualifying heading, and then two runs leave the page as it was;
    exactly one otherwise, after the first qualifying heading.  That
    heading is still the first one for the second run, so two runs of a
    page with a qualifying heading add two bylines, the later one next
    to the heading and the earlier one right after it. *)
Theorem each_run_inserts_one v d :
  exists d1 d2,
    handler v d = Normal d1 /\
    handler v d1 = Normal d2 /\
    handler_twice v d = Normal d2 /\
    match querySelector d article_headings with
    | None => d1 = d /\ d2 = d
    | Some h =>
        List.length (bylines d1) = 1 + List.length (bylines d) /\
        List.length (bylines d2) = 2 + List.length (bylines d) /\
        querySelector d1 article_headings = Some h /\
        node_at d2 (next_sibling h) = Some (avatarDiv v) /\
        node_at d2 (next_sibling (next_sibling h)) = Some (avatarDiv v)
    end.
Proof.
  destruct (querySelector d article_headings) as [h|] eqn:Hq.
  - destruct (handler_effect v d h Hq)
      as (d1 & Hr1 & Hi1 & Hh1 & Hn1 & Hl1 & Hq1).
    assert (Hq' : querySelector d1 article_headings = Some h).
    { unfold querySelector in *. rewrite Hq1.
      destruct (querySelectorAll d article_headings) as [|x l];
        [discriminate|].
      simpl in *. inversion Hq; subst. now rewrite shift_self. }
    destruct (handler_effect v d1 h Hq')
      as (d2 & Hr2 & Hi2 & Hh2 & Hn2 & Hl2 & Hq2).
    exists d1, d2. repeat split; auto.
    + now rewrite handler_twice_unfold, Hr1.
    + rewrite Hl2, Hl1. reflexivity.
    + now rewrite (insert_afterend_later _ _ _ _ Hi2).
  - exists d, d. rewrite handler_twice_unfold.
    rewrite !(handler_not_found v d Hq). auto.
Qed.

(** C4.  The two variants run on the sample page: both end normally and
    put their block at the same place, but the label of the block reads
    ["By labeeb"] in [docs/js/author-avatar.js] and ["By Labeeb"] in the
    [README.md] variant. *)
Theorem label_text_differs_between_variants :
  exists d1 d2 b1 b2,
    handler Relative page_title_body = Normal d1 /\
    handler (OriginQualified "https://example.org") page_title_body =
      Normal d2 /\
    node_at d1 [0; 1] = Some b1 /\
    node_at d2 [0; 1] = Some b2 /\
    label_text b1 = Some "By labeeb" /\
    label_text b2 = Some "By Labeeb" /\
    label_text b1 <> label_text b2 /\
    image_source b1 = Some "images/labeeb.jpg" /\
    image_source b2 =
      Some "https://example.org/backend-engineering-notes/images/labeeb.jpg".
Proof.
  do 4 eexists. repeat split; try reflexivity.
  vm_compute. discriminate.
Qed.

(** Apart from the block they build, the two variants do the same:
    they find the same heading and insert at the same place, and the two
    blocks have the same shape. *)
Lemma variants_same_anchor d origin :
  exists d1 d2,
    handler Relative d = Normal d1 /\
    handler (OriginQualified origin) d = Normal d2 /\
    match querySelector d article_headings with
    | None => d1 = d /\ d2 = d
    | Some h =>
        insert_adjacent d h afterend
          (byline_element relative_image_path "By labeeb") = Some d1 /\
        insert_adjacent d h afterend
          (byline_element (Readme.image_url origin) "By Labeeb") = Some d2
    end.
Proof.
  destruct (querySelector d article_headings) as [h|] eqn:Hq.
  - destruct (handler_found Relative d h Hq) as (d1 & H1 & R1).
    destruct (handler_found (OriginQualified origin) d h Hq)
      as (d2 & H2 & R2).
    exists d1, d2. auto.
  - exists d, d. rewrite !handler_not_found; auto.
Qed.

(** C5, as stated, fails for an origin that ends in a slash, such as the
    origin [file://] of a page opened from disk: three slashes in a row
    join it to the base path. *)
Lemma origin_ending_in_slash_counterexample :
  ~ (Readme.image_url "file://" =
       ("file://" ++ site_base_path ++ image_sub_path)%string /\
     junction_slashes "file://" site_base_path = 1 /\
     junction_slashes site_base_path image_sub_path = 1).
Proof.
  intros (_ & H & _). vm_compute in H. discriminate H.
Qed.

(** C5, amended.  For every origin that does not end in a slash, the
    image URL is the origin, the site base path and the image sub-path
    put end to end, exactly one slash stands at each of the two places
    where they meet, and two slashes in a row occur in the URL only
    inside the origin. *)
Theorem image_url_junctions origin :
  trailing_slashes origin = 0 ->
  Readme.image_url origin =
    (origin ++ site_base_path ++ image_sub_path)%string /\
  junction_slashes origin site_base_path = 1 /\
  junction_slashes site_base_path image_sub_path = 1 /\
  forall n, substring n 2 (Readme.image_url origin) = "//" ->
            n + 2 <= String.length origin.
Proof.
  intros H. split; [reflexivity|]. split; [|split; [reflexivity|]].
  - unfold junction_slashes. rewrite H. reflexivity.
  - intros n Hn. now apply double_slash_inside_origin.
Qed.

Lemma image_url_junctions_witness :
  Readme.image_url "https://example.org" =
    ("https://example.org" ++ site_base_path ++ image_sub_path)%string /\
  junction_slashes "https://example.org" site_base_path = 1 /\
  junction_slashes site_base_path image_sub_path = 1 /\
  forall n, substring n 2 (Readme.image_url "https://example.org") = "//" ->
            n + 2 <= String.length "https://example.org".
Proof.
  apply (image_url_junctions "https://example.org"). reflexivity.
Defined.

(** The example of the specification. *)
Example image_url_example :
  Readme.image_url "https://example.org" =
  "https://example.org/backend-engineering-notes/images/labeeb.jpg".
Proof. reflexivity. Qed.

(** The concatenation itself needs no condition on the origin. *)
Lemma image_url_concat origin :
  Readme.image_url origin =
  (origin ++ site_base_path ++ image_sub_path)%string.
Proof. reflexivity. Qed.

(** C6.  On a page with no qualifying heading, and no byline when it is
    delivered, a run of the readiness handler ends normally (nothing is
    thrown), leaves the document as it was, and no byline is in it. *)
Theorem no_heading_no_change v d :
  querySelectorAll d article_headings = [] ->
  bylines d = [] ->
  exists d', handler v d = Normal d' /\ d' = d /\ bylines d' = [].
Proof.
  intros Hall Hnone. exists d. repeat split; auto.
  apply handler_not_found. unfold querySelector. now rewrite Hall.
Qed.

Lemma no_heading_no_change_witness :
  exists d',
    handler Relative page_no_heading = Normal d' /\
    d' = page_no_heading /\ bylines d' = [].
Proof.
  apply (no_heading_no_change Relative page_no_heading); reflexivity.
Defined.

(** C7.  A run never replaces or removes a node.  Without a qualifying
    heading the document is unchanged.  Otherwise every node of the
    document is still in it, the same node at the place [shift] gives,
    and these places are in the order the nodes were in; the heading is
    where it was and the block is its next sibling; the block is the only
    change: detaching it gives the document of before back, and the
    markup of the document is the markup of before with the markup of
    the block put in at one place. *)
Theorem insertion_is_additive v d :
  exists d',
    handler v d = Normal d' /\
    match querySelector d article_headings with
    | None => d' = d
    | Some h =>
        (forall q n, node_at d q = Some n ->
           exists n', node_at d' (shift h q) = Some n' /\ same_node n n') /\
        (forall q1 q2, doc_before q1 q2 = true ->
           doc_before (shift h q1) (shift h q2) = true) /\
        node_at d' h = node_at d h /\
        node_at d' (next_sibling h) = Some (avatarDiv v) /\
        remove_at d' (next_sibling h) = Some d /\
        exists l1 l2,
          tokens d = l1 ++ l2 /\
          tokens d' = l1 ++ tokens_node (avatarDiv v) ++ l2
    end.
Proof.
  destruct (querySelector d article_headings) as [h|] eqn:Hq.
  - destruct (handler_effect v d h Hq) as (d' & Hr & Hi & Hh & Hn & _).
    exists d'. split; [exact Hr|].
    split; [now apply insert_afterend_nodes with (b := avatarDiv v)|].
    split; [apply shift_order|].
    repeat split; auto.
    + now apply insert_afterend_remove with (b := avatarDiv v).
    + now apply insert_afterend_tokens with (p := h).
  - exists d. split; [now apply handler_not_found|reflexivity].
Qed.

(** C8.  In the relative variant the image of the inserted block has the
    fixed relative path [images/labeeb.jpg] as its source. *)
Theorem relative_image_source d h :
  querySelector d article_headings = Some h ->
  exists d' b,
    handler Relative d = Normal d' /\
    node_at d' (next_sibling h) = Some b /\
    image_source b = Some relative_image_path /\
    relative_image_path = "images/labeeb.jpg".
Proof.
  intros Hq.
  destruct (handler_effect Relative d h Hq) as (d' & Hr & _ & _ & Hn & _).
  exists d', (avatarDiv Relative). repeat split; auto.
Qed.

Lemma relative_image_source_witness :
  exists d' b,
    handler Relative page_title_body = Normal d' /\
    node_at d' [0; 1] = Some b /\
    image_source b = Some relative_image_path /\
    relative_image_path = "images/labeeb.jpg".
Proof.
  apply (relative_image_source page_title_body [0; 0]). reflexivity.
Defined.

(** C9, as stated, fails: on a host without element construction the
    run on the sample page ends with the exception, not normally. *)
Lemma unsupported_host_counterexample :
  ~ (exists d',
       run (listener (H := unsupported_dom) Relative) page_title_body =
       Normal d').
Proof.
  intros (d' & H). vm_compute in H. discriminate H.
Qed.

(** C9, amended.  The listener contains no failure: on any host, an
    exception thrown by a host access of a run (the lookup of the
    heading, the creation of the element, the read of
    [window.location.origin] in the [README.md] script, the assignment
    of the style, the assignment of the markup, the insertion) leaves
    the listener as thrown.  A run that finds no heading ends normally
    without a further access.  In a browser showing an HTML document
    every access succeeds and every run ends normally. *)
Theorem errors_leave_the_listener :
  (forall v d, exists d', handler v d = Normal d') /\
  (forall (api : DomApi) v d d0,
     querySelector_ article_headings d = Normal (None, d0) ->
     run (listener v) d = Normal d0) /\
  (forall (api : DomApi) v d e,
     thrown_by_access v d e -> run (listener v) d = Throw e).
Proof.
  split; [|split].
  - intros v d. destruct (querySelector d article_headings) as [h|] eqn:Hq.
    + destruct (handler_found v d h Hq) as (d' & _ & Hr). now exists d'.
    + exists d. now apply handler_not_found.
  - intros api v d d0 Hq.
    destruct v; cbn [listener];
      [rewrite run_author_avatar|rewrite run_readme]; now rewrite Hq.
  - intros api v d e [H0|(h & d0 & H0 & [H1|(n1 & d1 & H1 & H)])].
    + destruct v; cbn [listener];
        [rewrite run_author_avatar|rewrite run_readme]; now rewrite H0.
    + destruct v; cbn [listener];
        [rewrite run_author_avatar|rewrite run_readme]; now rewrite H0, H1.
    + destruct v; cbn [listener].
      * rewrite run_author_avatar, H0, H1.
        destruct H as [H2|(n2 & d2 & H2 & [H3|(n3 & d3 & H3 & H4)])].
        -- now rewrite H2.
        -- now rewrite H2, H3.
        -- now rewrite H2, H3, H4.
      * rewrite run_readme, H0, H1.
        destruct H as [Ho|(o & d1' & Ho & H)]; [now rewrite Ho|].
        rewrite Ho.
        destruct H as [H2|(n2 & d2 & H2 & [H3|(n3 & d3 & H3 & H4)])].
        -- now rewrite H2.
        -- now rewrite H2, H3.
        -- now rewrite H2, H3, H4.
Qed.

(** C10.  On a page with two or more qualifying headings, and no byline
    when it is delivered, one run ends normally and leaves exactly one
    byline, the block the script built, as the immediate next sibling of
    the first qualifying heading in tree order.  The later headings are
    all still there, each at its place after the insertion, and none of
    them has a byline as its next sibling. *)
Theorem several_headings_first_gets_byline v d h h2 rest :
  querySelectorAll d article_headings = h :: h2 :: rest ->
  bylines d = [] ->
  exists d',
    handler v d = Normal d' /\
    bylines d' = [next_sibling h] /\
    node_at d' (next_sibling h) = Some (avatarDiv v) /\
    node_at d' h = node_at d h /\
    querySelectorAll d' article_headings =
      h :: map (shift h) (h2 :: rest) /\
    forall q, In q (map (shift h) (h2 :: rest)) ->
              ~ In (next_sibling q) (bylines d').
Proof.
  intros Hall Hnone.
  destruct (handler_effect v d h (querySelector_hd d h _ Hall))
    as (d' & Hr & _ & Hh & Hn & Hl & Hq).
  assert (Hq' : querySelectorAll d' article_headings =
                h :: map (shift h) (h2 :: rest)).
  { rewrite Hq, Hall. cbn [map]. now rewrite shift_self. }
  assert (Hb : bylines d' = [next_sibling h])
    by now apply bylines_single with (v := v) (d := d).
  exists d'. repeat split; auto.
  intros q Hin Hby. rewrite Hb in Hby. destruct Hby as [Hby|[]].
  apply next_sibling_inj in Hby. subst q.
  pose proof (select_forest_sorted (matches_any article_headings) d' [] 0)
    as Hs.
  fold (querySelectorAll d' article_headings) in Hs. rewrite Hq' in Hs.
  inversion Hs as [|x l _ Hall' E]; subst.
  eapply Forall_forall in Hall'; [|exact Hin].
  unfold lt_doc in Hall'. now rewrite doc_before_irrefl in Hall'.
Qed.

Lemma several_headings_first_gets_byline_witness :
  exists d',
    handler Relative page_two_articles = Normal d' /\
    bylines d' = [[0; 0; 0; 1]] /\
    node_at d' [0; 0; 0; 1] = Some (avatarDiv Relative) /\
    node_at d' [0; 0; 0; 0] = node_at page_two_articles [0; 0; 0; 0] /\
    querySelectorAll d' article_headings = [[0; 0; 0; 0]; [0; 0; 1; 0]] /\
    forall q, In q [[0; 0; 1; 0]] -> ~ In (next_sibling q) (bylines d').
Proof.
  apply (several_headings_first_gets_byline Relative page_two_articles
           [0; 0; 0; 0] [0; 0; 1; 0] []); reflexivity.
Defined.

(* ===================================================================== *)
(** * Further properties of the scripts *)
(* ===================================================================== *)

Module PlacementFacts.
Import Dom Js Scripts DomFacts ScriptFacts.

Lemma ancestor_tags_step f i q anc :
  q <> [] ->
  ancestor_tags f (i :: q) anc =
  match nth_error f i with
  | Some (Element t _ cs) => ancestor_tags cs q (t :: anc)
  | _ => anc
  end.
Proof. destruct q as [|j q]; [congruence|reflexivity]. Qed.

Lemma node_at_step f i q :
  q <> [] ->
  node_at f (i :: q) =
  match nth_error f i with
  | Some n => node_at (children n) q
  | None => None
  end.
Proof. destruct q as [|j q]; [congruence|reflexivity]. Qed.

(** An ancestor tag is the tag of a node of the tree. *)
Lemma ancestor_tags_source t p : forall f anc,
  In t (ancestor_tags f p anc) ->
  In t anc \/ exists q n, node_at f q = Some n /\ tag_of n = t.
Proof.
  induction p as [|i p IH]; intros f anc H; [now left|].
  destruct p as [|j p]; [now left|].
  rewrite ancestor_tags_step in H by discriminate.
  destruct (nth_error f i) as [[t0 a cs|s]|] eqn:E; try now left.
  destruct (IH _ _ H) as [[<-|Hin]|(q & n & Hq & Hn)].
  - right. exists [i], (Element t0 a cs). split; [|reflexivity].
    now rewrite node_at_last.
  - now left.
  - right. exists (i :: q), n. split; [|exact Hn].
    destruct q as [|k q]; [discriminate|].
    now rewrite node_at_deep, E.
Qed.


Lemma iter_next_last k i : Nat.iter k next_sibling [i] = [k + i].
Proof.
  induction k as [|k IH]; [reflexivity|].
  simpl. now rewrite IH.
Qed.

Lemma iter_next_cons k i q :
  q <> [] ->
  Nat.iter k next_sibling (i :: q) = i :: Nat.iter k next_sibling q /\
  Nat.iter k next_sibling q <> [].
Proof.
  intros Hq. induction k as [|k [IH1 IH2]]; [now split|].
  cbn [Nat.iter nat_rect]. fold (Nat.iter k next_sibling (i :: q)).
  fold (Nat.iter k next_sibling q). rewrite IH1.
  destruct (Nat.iter k next_sibling q) as [|x y] eqn:E; [congruence|].
  split; [reflexivity|apply next_sibling_nonempty].
Qed.

(** The siblings after the anchor all move one place. *)
Lemma insert_afterend_later_siblings b p f f' :
  insert_adjacent f p afterend b = Some f' ->
  forall k,
    node_at f' (Nat.iter (S (S k)) next_sibling p) =
    node_at f (Nat.iter (S k) next_sibling p).
Proof.
  revert p f f'.
  apply (insert_afterend_ind b (fun f p f' => forall k,
    node_at f' (Nat.iter (S (S k)) next_sibling p) =
    node_at f (Nat.iter (S k) next_sibling p))).
  - intros f i n H k. rewrite !iter_next_last, !node_at_last.
    replace (S (S k) + i) with (i + (2 + k)) by lia.
    rewrite (nth_error_splice_at _ _ _ _ _ H).
    change (nth_error ([n; b] ++ skipn (S i) f) (2 + k))
      with (nth_error (skipn (S i) f) k).
    rewrite nth_error_skipn. f_equal. lia.
  - intros f i t a cs j p cs' H _ IH k.
    destruct (iter_next_cons (S (S k)) i (j :: p)) as [E1 N1];
      [discriminate|].
    destruct (iter_next_cons (S k) i (j :: p)) as [E2 N2];
      [discriminate|].
    rewrite E1, E2, (node_at_step _ _ _ N1), (node_at_step _ _ _ N2).
    rewrite H, (nth_error_splice_hd _ _ _ _ _ H). apply IH.
Qed.

(** A node that is not an ancestor of the anchor is in the tree after
    the insertion with all that is below it, at the place [shift]
    gives. *)
Lemma insert_afterend_frame b p f f' :
  insert_adjacent f p afterend b = Some f' ->
  forall q n, node_at f q = Some n -> strict_prefix q p = false ->
  node_at f' (shift p q) = Some n.
Proof.
  revert p f f'.
  apply (insert_afterend_ind b (fun f p f' =>
    forall q n, node_at f q = Some n -> strict_prefix q p = false ->
    node_at f' (shift p q) = Some n)).
  - intros f i n0 H [|k q] n Hn _; [discriminate|].
    rewrite <- Hn.
    destruct (Nat.lt_trichotomy k i) as [Hk|[->|Hk]].
    + rewrite shift_last_low by lia.
      apply node_at_head. now apply nth_error_splice_before with (n := n0).
    + rewrite shift_last_low by lia.
      apply node_at_head.
      now rewrite (nth_error_splice_hd _ _ _ _ _ H), H.
    + rewrite shift_last_high by lia.
      apply node_at_head.
      pose proof (nth_error_splice_after f i n0 [n0; b] k H Hk) as E.
      cbn [List.length] in E.
      now replace (k + 2 - 1) with (S k) in E by lia.
  - intros f i t a cs j p cs' H _ IH [|k q] n Hn Hp; [discriminate|].
    destruct (Nat.eq_dec k i) as [->|Hk].
    + rewrite shift_deep_eq.
      cbn [strict_prefix] in Hp. rewrite Nat.eqb_refl in Hp.
      destruct q as [|k' q]; [discriminate Hp|].
      rewrite node_at_deep, H in Hn. simpl children in Hn.
      rewrite node_at_step by apply shift_nonempty.
      rewrite (nth_error_splice_hd _ _ _ _ _ H). simpl children.
      now apply IH.
    + rewrite shift_deep_ne by exact Hk.
      rewrite <- Hn. apply node_at_head.
      destruct (Nat.lt_ge_cases k i) as [Hlt|Hge].
      * now apply nth_error_splice_before with (n := Element t a cs).
      * pose proof (nth_error_splice_after f i _ [Element t a cs'] k H) as E.
        cbn [List.length] in E.
        replace (k + 1 - 1) with k in E by lia. apply E. lia.
Qed.

Lemma handler_times_S v n d :
  handler_times v (S n) d =
  match handler_times v n d with
  | Normal dn => handler v dn
  | Throw e => Throw e
  end.
Proof. unfold handler_times, handler. apply run_seq. Qed.

(** The first heading is the first heading after a run. *)
Lemma querySelector_after_run v d h d' :
  querySelector d article_headings = Some h ->
  insert_adjacent d h afterend (avatarDiv v) = Some d' ->
  querySelector d' article_headings = Some h.
Proof.
  intros Hq Hi. unfold querySelector in *.
  rewrite (headings_after_insert v d h d' Hi).
  destruct (querySelectorAll d article_headings) as [|x l];
    [discriminate|].
  simpl in *. inversion Hq; subst. now rewrite shift_self.
Qed.

(** What ["article"] and ["h1, h2"] match. *)
Lemma matches_type_article anc n :
  tag_of n = "article" -> matches_any [Type_sel "article"] anc n = true.
Proof.
  destruct n as [t a cs|s]; simpl; [|discriminate].
  intros ->. reflexivity.
Qed.

Lemma matches_type_headings anc n :
  is_heading n = true ->
  matches_any [Type_sel "h1"; Type_sel "h2"] anc n = true.
Proof.
  destruct n as [t a cs|s]; simpl; [|discriminate].
  now rewrite orb_false_r.
Qed.

End PlacementFacts.

Import PlacementFacts.


(** X2.  Headings outside an [article] do not count, and neither do
    elements other than [h1] and [h2]: on a page where
    [querySelectorAll("article")] or [querySelectorAll("h1, h2")] is
    empty, a run ends normally and leaves the document as it was. *)
Theorem no_article_or_no_heading_unchanged v d :
  querySelectorAll d [Type_sel "article"] = [] \/
  querySelectorAll d [Type_sel "h1"; Type_sel "h2"] = [] ->
  handler v d = Normal d.
Proof.
  intros H. apply handler_not_found.
  destruct (querySelector d article_headings) as [h|] eqn:Hq;
    [exfalso|reflexivity].
  apply querySelector_In, querySelectorAll_In in Hq as (n & Hn & Hh & Ha).
  destruct H as [H|H].
  - apply ancestor_tags_source in Ha as [[]|(q & m & Hq & Hm)].
    assert (Hin : In q (querySelectorAll d [Type_sel "article"])).
    { unfold querySelectorAll. apply select_forest_In. exists m.
      split; [exact Hq|]. now apply matches_type_article. }
    now rewrite H in Hin.
  - assert (Hin : In h (querySelectorAll d [Type_sel "h1"; Type_sel "h2"])).
    { unfold querySelectorAll. apply select_forest_In. exists n.
      split; [exact Hn|]. now apply matches_type_headings. }
    now rewrite H in Hin.
Qed.

Lemma no_article_or_no_heading_unchanged_witness :
  handler Relative page_heading_outside_article =
  Normal page_heading_outside_article.
Proof.
  apply (no_article_or_no_heading_unchanged Relative
           page_heading_outside_article).
  left. reflexivity.
Defined.

(** X3.  The listener run [n] times on a page with a qualifying heading
    ends normally and adds [n] bylines.  The heading stays where it was
    and stays the first qualifying heading; the [n] blocks are its next
    [n] siblings, and the nodes that followed the heading follow the
    blocks. *)
Theorem repeated_runs v d h n :
  querySelector d article_headings = Some h ->
  exists dn,
    handler_times v n d = Normal dn /\
    List.length (bylines dn) = n + List.length (bylines d) /\
    querySelector dn article_headings = Some h /\
    node_at dn h = node_at d h /\
    (forall i, 1 <= i <= n ->
       node_at dn (Nat.iter i next_sibling h) = Some (avatarDiv v)) /\
    (forall k,
       node_at dn (Nat.iter (n + S k) next_sibling h) =
       node_at d (Nat.iter (S k) next_sibling h)).
Proof.
  intros Hq. induction n as [|n IH].
  - exists d. repeat split; auto. intros i Hi. lia.
  - destruct IH as (dn & Hr & Hl & Hqn & Hh & Hb & Hs).
    destruct (handler_effect v dn h Hqn)
      as (d' & Hr' & Hi & Hh' & Hn' & Hl' & _).
    exists d'. split; [now rewrite handler_times_S, Hr|].
    split; [rewrite Hl', Hl; reflexivity|].
    split; [now apply querySelector_after_run with (v := v) (d := dn)|].
    split; [congruence|]. split.
    + intros [|[|k]] Hk; [lia|exact Hn'|].
      rewrite (insert_afterend_later_siblings _ _ _ _ Hi k).
      apply Hb. lia.
    + intros k. replace (S n + S k) with (S (S (n + k))) by lia.
      rewrite (insert_afterend_later_siblings _ _ _ _ Hi (n + k)).
      replace (S (n + k)) with (n + S k) by lia. apply Hs.
Qed.

Lemma repeated_runs_witness :
  exists dn,
    handler_times Relative 3 page_title_body = Normal dn /\
    List.length (bylines dn) = 3 + List.length (bylines page_title_body) /\
    querySelector dn article_headings = Some [0; 0] /\
    node_at dn [0; 0] = node_at page_title_body [0; 0] /\
    (forall i, 1 <= i <= 3 ->
       node_at dn (Nat.iter i next_sibling [0; 0]) =
       Some (avatarDiv Relative)) /\
    (forall k,
       node_at dn (Nat.iter (3 + S k) next_sibling [0; 0]) =
       node_at page_title_body (Nat.iter (S k) next_sibling [0; 0])).
Proof.
  apply (repeated_runs Relative page_title_body [0; 0] 3). reflexivity.
Defined.

(** X4.  In the [README.md] variant the image of the inserted block has
    [window.location.origin] followed by
    [/backend-engineering-notes/images/labeeb.jpg] as its source,
    wherever in the page the heading is. *)
Theorem origin_qualified_image_source origin d h :
  querySelector d article_headings = Some h ->
  exists d' b,
    handler (OriginQualified origin) d = Normal d' /\
    node_at d' (next_sibling h) = Some b /\
    image_source b =
      Some (origin ++ "/backend-engineering-notes/images/labeeb.jpg")%string.
Proof.
  intros Hq.
  destruct (handler_effect (OriginQualified origin) d h Hq)
    as (d' & Hr & _ & _ & Hn & _).
  exists d', (avatarDiv (OriginQualified origin)). repeat split; auto.
Qed.

Lemma origin_qualified_image_source_witness :
  exists d' b,
    handler (OriginQualified "https://example.org") page_two_articles =
      Normal d' /\
    node_at d' [0; 0; 0; 1] = Some b /\
    image_source b =
      Some "https://example.org/backend-engineering-notes/images/labeeb.jpg".
Proof.
  apply (origin_qualified_image_source "https://example.org"
           page_two_articles [0; 0; 0; 0]). reflexivity.
Defined.



(** X6.  A run touches nothing but the child lists on the way to the
    heading: every node that is not an ancestor of the heading is in the
    document after the run with everything below it, at the place
    [shift] gives. *)
Theorem run_frame v d h q n :
  querySelector d article_headings = Some h ->
  node_at d q = Some n ->
  strict_prefix q h = false ->
  exists d', handler v d = Normal d' /\ node_at d' (shift h q) = Some n.
Proof.
  intros Hq Hn Hp. destruct (handler_found v d h Hq) as (d' & Hi & Hr).
  exists d'. split; [exact Hr|].
  now apply insert_afterend_frame with (b := avatarDiv v) (f := d).
Qed.

Lemma run_frame_witness :
  exists d',
    handler Relative page_two_articles = Normal d' /\
    node_at d' [0; 0; 1] =
    Some (Element "article" []
            [Element "h1" [] [Text "Second"]; Element "p" [] [Text "b"]]).
Proof.
  apply (run_frame Relative page_two_articles [0; 0; 0; 0] [0; 0; 1]);
    reflexivity.
Defined.



(** X8.  A run neither adds nor removes a qualifying heading: the
    qualifying headings after the run are those of before, in the same
    order and each at the place [shift] gives, and the first of them is
    where it was. *)
Theorem headings_kept v d h :
  querySelector d article_headings = Some h ->
  exists d',
    handler v d = Normal d' /\
    querySelectorAll d' article_headings =
      map (shift h) (querySelectorAll d article_headings) /\
    List.length (querySelectorAll d' article_headings) =
      List.length (querySelectorAll d article_headings) /\
    querySelector d' article_headings = Some h.
Proof.
  intros Hq. destruct (handler_found v d h Hq) as (d' & Hi & Hr).
  exists d'. split; [exact Hr|].
  rewrite (headings_after_insert v d h d' Hi), length_map.
  repeat split.
  now apply querySelector_after_run with (v := v) (d := d).
Qed.

Lemma headings_kept_witness :
  exists d',
    handler Relative page_two_articles = Normal d' /\
    querySelectorAll d' article_headings =
      map (shift [0; 0; 0; 0])
          (querySelectorAll page_two_articles article_headings) /\
    List.length (querySelectorAll d' article_headings) =
      List.length (querySelectorAll page_two_articles article_headings) /\
    querySelector d' article_headings = Some [0; 0; 0; 0].
Proof.
  apply (headings_kept Relative page_two_articles [0; 0; 0; 0]).
  reflexivity.
Defined.

(** X9.  The listener raises nothing of its own.  On any host, when a
    run ends with an exception, that exception was thrown by one of the
    host accesses the listener makes, in the order it makes them: the
    lookup, or, a heading having been found, the creation of the
    element, the read of [window.location.origin] (in the [README.md]
    script), the assignment of the style, the assignment of the markup,
    or the insertion after the heading. *)
Theorem throw_comes_from_host_access (api : DomApi) v d e :
  run (listener v) d = Throw e -> thrown_by_access v d e.
Proof.
  intros H. unfold thrown_by_access.
  destruct v; cbn [listener] in H;
    [rewrite run_author_avatar in H|rewrite run_readme in H];
    (destruct (querySelector_ article_headings d) as [[[h|] d0]|e0];
     [| discriminate H | left; congruence]);
    right; exists h, d0; (split; [reflexivity|]);
    (destruct (createElement_ "div" d0) as [[n1 d1]|e1];
     [|left; congruence]);
    right; exists n1, d1; (split; [reflexivity|]).
  - unfold thrown_by_build.
    destruct (set_style n1 container_style d1) as [[n2 d2]|e2];
      [|left; congruence].
    right. exists n2, d2. split; [reflexivity|].
    destruct (set_innerHTML n2 AuthorAvatar.avatar_markup d2)
      as [[n3 d3]|e3]; [|left; congruence].
    right. exists n3, d3. split; [reflexivity|].
    destruct (insertAdjacentElement h "afterend" n3 d3) as [[[] d4]|e4];
      [discriminate H|congruence].
  - destruct (location_origin d1) as [[o d1']|eo]; [|left; congruence].
    right. exists o, d1'. split; [reflexivity|].
    unfold thrown_by_build.
    destruct (set_style n1 container_style d1') as [[n2 d2]|e2];
      [|left; congruence].
    right. exists n2, d2. split; [reflexivity|].
    destruct (set_innerHTML n2 (Readme.avatar_markup (Readme.image_url o))
                d2) as [[n3 d3]|e3]; [|left; congruence].
    right. exists n3, d3. split; [reflexivity|].
    destruct (insertAdjacentElement h "afterend" n3 d3) as [[[] d4]|e4];
      [discriminate H|congruence].
Qed.

Lemma throw_comes_from_host_access_witness :
  @thrown_by_access unsupported_dom (OriginQualified "https://example.org")
    page_title_body NotSupportedError.
Proof.
  apply (throw_comes_from_host_access unsupported_dom
           (OriginQualified "https://example.org") page_title_body
           NotSupportedError).
  reflexivity.
Defined.
